(** * CardShuffler: a shallow embedding of [src/CardShuffler.h]

    The class template [CardShuffler<T>] keeps a deck of cards in a
    [std::vector<T>] and permutes it in place.  The embedding below follows
    the header member by member.

    Modelling conventions.
    - The card type [T] and the [size_t] / [int] indices are natural
      numbers: cards and indices that a 32-bit [int] holds are what the
      embedding covers.  Two wrap-arounds decide what a call does and are
      written out: the [unsigned int] counter of the loop of [GenerateDeck],
      which cannot reach a size above [UINT_MAX], and [m_deckSize - 1] on an
      empty deck in the Fisher-Yates loop.  The [unsigned int] count of
      [RestoreDeck] is the number of shuffles as long as that number is at
      most [UINT_MAX]; the theorems on that count say so or concern small
      counts.
    - A call that does not return normally (it throws, or its loop cannot
      end) has the result [None]; the object such a call leaves behind is not
      modelled.  Allocation of a deck that [GenerateDeck] can fill succeeds.
    - The inverse shuffles stage the cards in two [std::vector<int>]; a card
      passes through them unchanged.
    - A [std::vector] is a list.  [operator[]] outside the vector is undefined
      behaviour in C++; it is modelled by [None] in the option monad, so a
      result [Some _] means that the run touched no element out of range.
    - The object is a record that every member function threads through.
    - [<random>] and [std::shuffle] are library code: they are an interface
      ([StdRandom]) with the guarantees of the C++ standard ([StdRandomSpec]). *)

From stdpp Require Import base decidable option numbers list.
From stdpp Require Import sorting.

(** ** The card type and the shuffle kinds *)

Abbreviation T := nat (only parsing).

Inductive ShuffleType : Set :=
  | STL_SHUFFLE
  | FISHER_YATES
  | OUTSHUFFLE
  | INSHUFFLE
  | INV_OUTSHUFFLE
  | INV_INSHUFFLE.

#[global] Instance ShuffleType_eq_dec : EqDecision ShuffleType.
Proof. solve_decision. Defined.

(** ** The random-number library *)

Class StdRandom := {
  (** [std::mt19937_64], the state of the engine *)
  urng : Type;
  (** [std::mt19937_64(seed)] *)
  mt19937_64 : Z → urng;
  (** [std::uniform_int_distribution<size_t>(a, b)(g)]: the value drawn and
      the engine afterwards *)
  uniform_int_distribution : nat → nat → urng → nat * urng;
  (** [std::shuffle(first, last, g)]: the range afterwards and the engine
      afterwards *)
  std_shuffle : list T → urng → list T * urng;
}.

Class StdRandomSpec (R : StdRandom) : Prop := {
  uniform_int_range a b g :
    a ≤ b → a ≤ (uniform_int_distribution a b g).1 ≤ b;
  std_shuffle_perm l g : (std_shuffle l g).1 ≡ₚ l;
}.

(** ** Vectors *)

Module Vec.

(** [v[i]] read; [None] when [i] is out of range. *)
Definition read (v : list T) (i : nat) : option T := v !! i.

(** [v[i] = x]; [None] when [i] is out of range. *)
Definition write (v : list T) (i : nat) (x : T) : option (list T) :=
  if decide (i < length v) then Some (<[i:=x]> v) else None.

(** [std::swap(v[i], v[j])]. *)
Definition swap (v : list T) (i j : nat) : option (list T) :=
  tmp ← read v i;
  y ← read v j;
  v1 ← write v i y;
  write v1 j tmp.

(** [std::copy(src.begin(), src.end(), dst.begin() + pos)]: one assignment
    through the output iterator per element of [src]. *)
Fixpoint copy (src dst : list T) (pos : nat) : option (list T) :=
  match src with
  | [] => Some dst
  | x :: src' => dst' ← write dst pos x; copy src' dst' (S pos)
  end.

(** [std::vector<T>(v.begin() + a, v.begin() + b)]. *)
Definition range (v : list T) (a b : nat) : option (list T) :=
  if decide (a ≤ b ∧ b ≤ length v) then Some (take (b - a) (drop a v))
  else None.

(** [std::is_sorted(v.begin(), v.end())]: no element is smaller than its
    predecessor. *)
Fixpoint is_sorted (v : list T) : bool :=
  match v with
  | x :: v' =>
      match v' with
      | y :: _ => negb (y <? x) && is_sorted v'
      | [] => true
      end
  | [] => true
  end.

End Vec.

(** ** The object *)

Section CardShuffler.
Context {R : StdRandom}.

Record CardShuffler : Type := mkCardShuffler {
  m_deck : list T;
  m_DeckCopy : list T;
  m_bIsDeckOdd : bool;
  m_deckSize : nat;
  m_FirstHalfIndex : nat;
  m_SecondHalfIndex : nat;
  m_MinVectorSize : nat;
  m_urng : urng;
}.

Definition MIN_DECK_SIZE : nat := 3.

(** Assignment to [m_deck] alone, and to [m_deck] and [m_urng]. *)
Definition set_deck (s : CardShuffler) (d : list T) : CardShuffler :=
  mkCardShuffler d (m_DeckCopy s) (m_bIsDeckOdd s) (m_deckSize s)
    (m_FirstHalfIndex s) (m_SecondHalfIndex s) (m_MinVectorSize s) (m_urng s).

Definition set_deck_urng (s : CardShuffler) (d : list T) (g : urng)
  : CardShuffler :=
  mkCardShuffler d (m_DeckCopy s) (m_bIsDeckOdd s) (m_deckSize s)
    (m_FirstHalfIndex s) (m_SecondHalfIndex s) (m_MinVectorSize s) g.

(** The constructor; [now] is the reading of the high-resolution clock. *)
Definition CardShuffler_ctor (now : Z) : CardShuffler :=
  mkCardShuffler [] [] false 0 0 0 0 (mt19937_64 now).

Definition GetDeck (s : CardShuffler) : list T := m_deck s.

Definition IsDeckRestored (s : CardShuffler) : bool :=
  Vec.is_sorted (m_deck s).

(** The largest [unsigned int] and the largest [int] (32 bits). *)
Definition UINT_MAX : N := 4294967295%N.
Definition INT_MAX : N := 2147483647%N.

(** [i++] on an [unsigned int]: after [UINT_MAX] comes 0. *)
Definition uint_succ (i : nat) : nat :=
  if decide (N.of_nat i = UINT_MAX) then 0 else S i.

(** [for (unsigned int i = 0; i < size; i++) m_deck.push_back(i);]
    where [size] is a [size_t]: the test compares the counter with the
    size, the counter wraps around.  [fuel] bounds the passes of the model;
    [None] when the fuel runs out before the test fails. *)
Fixpoint push_back_loop (fuel size i : nat) (v : list T) : option (list T) :=
  if decide (i < size) then
    match fuel with
    | 0 => None
    | S fuel' => push_back_loop fuel' size (uint_succ i) (v ++ [i])
    end
  else Some v.

(** The value returned and the object afterwards; [None] when the call does
    not return normally.  The loop is given [size] passes: a run that ends
    does so after exactly [size] passes, and for a size above [UINT_MAX] no
    number of passes ends it ([push_back_loop_never] below), so that the
    call can only end in an exception: of [m_deck.reserve(size)], when the
    library refuses or cannot allocate that size, or of a later
    [push_back]. *)
Definition GenerateDeck (size : nat) (s : CardShuffler)
  : option (list T * CardShuffler) :=
  if decide (size < MIN_DECK_SIZE) then Some ([], s)
  else
    deck ← push_back_loop size size 0 [];
    Some (deck,
          mkCardShuffler deck [] (bool_decide (size `mod` 2 = 1)) size
            (m_FirstHalfIndex s) (m_SecondHalfIndex s) (m_MinVectorSize s)
            (m_urng s)).

(** The value that [GenerateDeck] returns is dropped. *)
Definition ResetDeck (s : CardShuffler) : option CardShuffler :=
  let nSize := length (m_deck s) in
  r ← GenerateDeck nSize s; Some r.2.

(** [copy_every_n]: the source range is [src[srcBegin .. srcEnd)], the two
    output iterators start at the front of [d1] and [d2]; [k] counts the
    increments of the output iterators and [pos] is the source iterator. *)
Fixpoint copy_every_n_loop (i : nat) (src : list T) (pos : nat)
    (d1 d2 : list T) (k n : nat) : option (list T * list T) :=
  match i with
  | 0 => Some (d1, d2)
  | S i' =>
      x ← Vec.read src pos;
      d1' ← Vec.write d1 k x;
      y ← Vec.read src (pos + 1);
      d2' ← Vec.write d2 k y;
      copy_every_n_loop i' src (pos + n) d1' d2' (S k) n
  end.

Definition copy_every_n (src : list T) (srcBegin srcEnd : nat)
    (d1 d2 : list T) (n : nat) : option (list T * list T) :=
  if decide (n ≠ 0 ∧ srcBegin ≤ srcEnd ∧ srcEnd ≤ length src)
  then copy_every_n_loop ((srcEnd - srcBegin) / n) src srcBegin d1 d2 0 n
  else None.

(** The Fisher-Yates loop [for (size_t i = m_deckSize - 1; i > 0; --i)]. *)
Fixpoint fisher_yates_loop (i : nat) (deck : list T) (g : urng)
  : option (list T * urng) :=
  match i with
  | 0 => Some (deck, g)
  | S i' =>
      let '(swapIndex, g') := uniform_int_distribution 0 i g in
      deck' ← Vec.swap deck i swapIndex;
      fisher_yates_loop i' deck' g'
  end.

(** The interleaving loop
    [for (int nIndex = 0, i = 0; i < minSize; i++, nIndex += 2)],
    with [cnt] the iterations that remain. *)
Fixpoint interleave_loop (cnt : nat) (shuffleType : ShuffleType)
    (vecFirstHalf vecSecondHalf deck : list T) (nIndex i : nat)
  : option (list T) :=
  match cnt with
  | 0 => Some deck
  | S cnt' =>
      deck2 ←
        (if decide (shuffleType = INSHUFFLE) then
           a ← Vec.read vecSecondHalf i;
           deck1 ← Vec.write deck nIndex a;
           b ← Vec.read vecFirstHalf i;
           Vec.write deck1 (nIndex + 1) b
         else
           a ← Vec.read vecFirstHalf i;
           deck1 ← Vec.write deck nIndex a;
           b ← Vec.read vecSecondHalf i;
           Vec.write deck1 (nIndex + 1) b);
      interleave_loop cnt' shuffleType vecFirstHalf vecSecondHalf deck2
        (nIndex + 2) (i + 1)
  end.

(** [half1] as the inverse shuffles compute it (it depends on the parity
    of the deck only) and as the forward shuffles compute it (it depends on
    the kind of shuffle only). *)
Definition inverse_half1 (s : CardShuffler) : nat :=
  if m_bIsDeckOdd s then m_deckSize s / 2 else (m_deckSize s + 1) / 2.

Definition forward_half1 (shuffleType : ShuffleType) (s : CardShuffler)
  : nat :=
  if decide (shuffleType = INSHUFFLE) then m_deckSize s / 2
  else (m_deckSize s + 1) / 2.

Definition PerformShuffle (shuffleType : ShuffleType) (s : CardShuffler)
  : option CardShuffler :=
  match shuffleType with
  | STL_SHUFFLE =>
      let '(deck, g) := std_shuffle (m_deck s) (m_urng s) in
      Some (set_deck_urng s deck g)
  | FISHER_YATES =>
      (* [m_deckSize - 1] wraps to [SIZE_MAX] for an empty deck and the
         first swap is out of range *)
      if decide (m_deckSize s = 0) then None
      else
        '(deck, g) ← fisher_yates_loop (m_deckSize s - 1) (m_deck s) (m_urng s);
        Some (set_deck_urng s deck g)
  | INV_INSHUFFLE | INV_OUTSHUFFLE =>
      let half1 := inverse_half1 s in
      let half2 := m_deckSize s - half1 in
      let minSize := half1 `min` half2 in
      let vecFirstHalf := replicate minSize 0 in
      let vecSecondHalf := replicate minSize 0 in
      let deck := m_deck s in
      if decide (shuffleType = INV_INSHUFFLE) then
        if m_bIsDeckOdd s then
          '(vecFirstHalf, vecSecondHalf) ←
            copy_every_n deck 0 (length deck - 1) vecFirstHalf vecSecondHalf 2;
          deck ← Vec.copy vecSecondHalf deck 0;
          deck ← Vec.copy vecFirstHalf deck half1;
          Some (set_deck s deck)
        else
          '(vecFirstHalf, vecSecondHalf) ←
            copy_every_n deck 0 (length deck) vecFirstHalf vecSecondHalf 2;
          deck ← Vec.copy vecSecondHalf deck 0;
          deck ← Vec.copy vecFirstHalf deck half1;
          Some (set_deck s deck)
      else
        if m_bIsDeckOdd s then
          '(vecFirstHalf, vecSecondHalf) ←
            copy_every_n deck 1 (length deck) vecFirstHalf vecSecondHalf 2;
          deck ← Vec.copy vecSecondHalf deck 1;
          deck ← Vec.copy vecFirstHalf deck (half1 + 1);
          Some (set_deck s deck)
        else
          '(vecFirstHalf, vecSecondHalf) ←
            copy_every_n deck 0 (length deck) vecFirstHalf vecSecondHalf 2;
          deck ← Vec.copy vecFirstHalf deck 0;
          deck ← Vec.copy vecSecondHalf deck half1;
          Some (set_deck s deck)
  | OUTSHUFFLE | INSHUFFLE =>
      let half1 := forward_half1 shuffleType s in
      let half2 := m_deckSize s - half1 in
      let minSize := half1 `min` half2 in
      vecFirstHalf ← Vec.range (m_deck s) 0 half1;
      vecSecondHalf ← Vec.range (m_deck s) half1 (length (m_deck s));
      deck ← interleave_loop minSize shuffleType vecFirstHalf vecSecondHalf
               (m_deck s) 0 0;
      if m_bIsDeckOdd s then
        if decide (shuffleType = INSHUFFLE) then
          x ← Vec.read vecSecondHalf (half2 - 1);
          deck ← Vec.write deck (m_deckSize s - 1) x;
          Some (set_deck s deck)
        else
          x ← Vec.read vecFirstHalf (half1 - 1);
          deck ← Vec.write deck (m_deckSize s - 1) x;
          Some (set_deck s deck)
      else Some (set_deck s deck)
  end.

(** [RestoreDeck]: the do-while loop has no bound in the source; [fuel]
    bounds the iterations of the model, and [None] is returned when the
    fuel runs out or a shuffle is undefined.  [nShuffles] is the number of
    shuffles performed; the [unsigned int] that the source returns is that
    number as long as it is at most [UINT_MAX]. *)
Fixpoint RestoreDeck_loop (fuel : nat) (shuffle : ShuffleType)
    (nShuffles : nat) (s : CardShuffler) : option (nat * CardShuffler) :=
  match fuel with
  | 0 => None
  | S fuel' =>
      let nShuffles := nShuffles + 1 in
      s' ← PerformShuffle shuffle s;
      if IsDeckRestored s' then Some (nShuffles, s')
      else RestoreDeck_loop fuel' shuffle nShuffles s'
  end.

Definition RestoreDeck (fuel : nat) (shuffle : ShuffleType)
    (s : CardShuffler) : option (nat * CardShuffler) :=
  RestoreDeck_loop fuel shuffle 0 s.

End CardShuffler.


(** ** Closed forms of the four riffle permutations

    [riffle l1 l2] alternates the cards of [l1] and [l2], [l1] first, and
    appends what is left of the longer list.  [alt true l] keeps the cards at
    the even offsets of [l] and [alt false l] those at the odd offsets. *)

Fixpoint riffle (l1 l2 : list T) : list T :=
  match l1, l2 with
  | x :: l1', y :: l2' => x :: y :: riffle l1' l2'
  | [], _ => l2
  | _, [] => l1
  end.

Fixpoint alt (keep : bool) (l : list T) : list T :=
  match l with
  | [] => []
  | x :: l' => if keep then x :: alt false l' else alt true l'
  end.

Definition outshuffle (d : list T) : list T :=
  let half1 := (length d + 1) / 2 in riffle (take half1 d) (drop half1 d).

Definition inshuffle (d : list T) : list T :=
  let half1 := length d / 2 in riffle (drop half1 d) (take half1 d).

Definition inv_outshuffle (d : list T) : list T := alt true d ++ alt false d.

Definition inv_inshuffle (d : list T) : list T := alt false d ++ alt true d.

Definition is_riffle (shuffleType : ShuffleType) : bool :=
  match shuffleType with
  | OUTSHUFFLE | INSHUFFLE | INV_OUTSHUFFLE | INV_INSHUFFLE => true
  | STL_SHUFFLE | FISHER_YATES => false
  end.

Definition riffle_perm (shuffleType : ShuffleType) (d : list T) : list T :=
  match shuffleType with
  | OUTSHUFFLE => outshuffle d
  | INSHUFFLE => inshuffle d
  | INV_OUTSHUFFLE => inv_outshuffle d
  | INV_INSHUFFLE => inv_inshuffle d
  | STL_SHUFFLE | FISHER_YATES => d
  end.

(** ** The class invariant and the reachable objects *)

Section invariant.
Context {R : StdRandom}.

(** What the constructor establishes and every member function keeps:
    [m_deckSize] is the size of [m_deck] and [m_bIsDeckOdd] its parity. *)
Record Invariant (s : CardShuffler) : Prop := {
  inv_size : m_deckSize s = length (m_deck s);
  inv_odd : m_bIsDeckOdd s = bool_decide (m_deckSize s `mod` 2 = 1);
}.

(** One call of a public member function that returns. *)
Inductive call : CardShuffler → CardShuffler → Prop :=
  | call_GenerateDeck size s deck s' :
      GenerateDeck size s = Some (deck, s') → call s s'
  | call_ResetDeck s s' : ResetDeck s = Some s' → call s s'
  | call_PerformShuffle shuffleType s s' :
      PerformShuffle shuffleType s = Some s' → call s s'
  | call_RestoreDeck fuel shuffle s n s' :
      RestoreDeck fuel shuffle s = Some (n, s') → call s s'.

(** The objects a client can hold: constructed, then used through the
    public member functions. *)
Inductive reachable : CardShuffler → Prop :=
  | reachable_ctor now : reachable (CardShuffler_ctor now)
  | reachable_call s s' : reachable s → call s s' → reachable s'.

(** A run of failed or successful [GenerateDeck] calls, results dropped. *)
Fixpoint generate_all (sizes : list nat) (s : CardShuffler)
  : option CardShuffler :=
  match sizes with
  | [] => Some s
  | size :: sizes' => r ← GenerateDeck size s; generate_all sizes' r.2
  end.

End invariant.

(** ** The inverse out-shuffle of an odd deck as the specification words it

    The specification describes the inverse out-shuffle of an odd deck as:
    position 0 stays, the cards at positions 1, 3, 5, ... form [A], the cards
    at positions 2, 4, 6, ... form [B], and [A] followed by [B] is written to
    positions 1 .. N-1, with [half1] the one of the out-shuffle,
    the ceiling of N/2.  These two definitions follow those words; they are
    compared with [PerformShuffle] below. *)

Definition spec_inv_outshuffle_odd (d : list T) : list T :=
  take 1 d ++ alt true (drop 1 d) ++ alt false (drop 1 d).

Definition spec_inverse_half1 (N : nat) : nat := (N + 1) / 2.

(** ** A concrete random-number library, for running the model

    A linear congruential engine; draws are reduced into the range asked
    for, and [std_shuffle] reverses the range. *)

Module Sample.

Definition next (g : N) : N := ((g * 25214903917 + 11) `mod` 2 ^ 48)%N.

#[export] Instance engine : StdRandom := {|
  urng := N;
  mt19937_64 := λ seed, Z.to_N (Z.abs seed);
  uniform_int_distribution := λ a b g,
    (a + N.to_nat (next g `mod` N.of_nat (b - a + 1))%N, next g);
  std_shuffle := λ l g, (reverse l, next g);
|}.

(** An odd deck and an even deck, both shuffled, in objects that satisfy
    the invariant. *)
Definition odd_deck : CardShuffler :=
  mkCardShuffler [0; 3; 1; 4; 2] [] true 5 0 0 0 (mt19937_64 2026).

Definition even_deck : CardShuffler :=
  mkCardShuffler [4; 0; 5; 2; 1; 3] [] false 6 0 0 0 (mt19937_64 7).

End Sample.

(** ** Repeated shuffles and the objects a client meets *)

Section repeated.
Context {R : StdRandom}.

(** [n] calls of [PerformShuffle] in a row. *)
Fixpoint shuffle_n (n : nat) (shuffleType : ShuffleType) (s : CardShuffler)
  : option CardShuffler :=
  match n with
  | 0 => Some s
  | S n' => s' ← PerformShuffle shuffleType s; shuffle_n n' shuffleType s'
  end.

(** The invariant with what the deck holds: the cards [0 .. N-1], and
    either no card or at least [MIN_DECK_SIZE] cards. *)
Definition DeckInvariant (s : CardShuffler) : Prop :=
  Invariant s ∧
  m_deck s ≡ₚ seq 0 (m_deckSize s) ∧
  (m_deckSize s = 0 ∨ MIN_DECK_SIZE ≤ m_deckSize s).

End repeated.


(** Objects built through the public member functions with the sample
    library: constructed, a deck of six generated, then shuffled once. *)
Module Run.

Definition generated : CardShuffler (R := Sample.engine) :=
  default (CardShuffler_ctor 2026)
    (snd <$> GenerateDeck 6 (CardShuffler_ctor 2026)).

Definition shuffled : CardShuffler (R := Sample.engine) :=
  default generated (PerformShuffle FISHER_YATES generated).

End Run.

(** ** Facts about lists *)

Section list_facts.
Implicit Types l d : list T.

Lemma riffle_nil_r l : riffle l [] = l.
Proof. by destruct l. Qed.

Lemma riffle_length l1 l2 : length (riffle l1 l2) = length l1 + length l2.
Proof.
  revert l2. induction l1 as [|x l1 IH]; intros [|y l2]; simpl; auto with lia.
  rewrite IH. lia.
Qed.

Lemma riffle_snoc_l l1 l2 x :
  length l1 = length l2 → riffle (l1 ++ [x]) l2 = riffle l1 l2 ++ [x].
Proof.
  revert l2. induction l1 as [|a l1 IH]; intros [|b l2] Hlen;
    simplify_eq/=; auto.
  by rewrite IH.
Qed.

Lemma riffle_Permutation l1 l2 : riffle l1 l2 ≡ₚ l1 ++ l2.
Proof.
  revert l2. induction l1 as [|a l1 IH]; intros [|b l2]; simpl; auto.
  - by rewrite app_nil_r.
  - rewrite IH. by rewrite (Permutation_middle l1 l2 b).
Qed.

Lemma alt_riffle l1 l2 :
  length l2 ≤ length l1 ≤ S (length l2) →
  alt true (riffle l1 l2) = l1 ∧ alt false (riffle l1 l2) = l2.
Proof.
  revert l2. induction l1 as [|a l1 IH]; intros [|b l2] Hlen; simpl in *;
    auto with lia.
  - destruct l1; simpl in *; auto with lia.
  - destruct (IH l2) as [-> ->]; auto with lia.
Qed.

Lemma alt_length l :
  length (alt true l) + length (alt false l) = length l ∧
  length (alt false l) ≤ length (alt true l) ≤ S (length (alt false l)).
Proof. induction l as [|x l IH]; simpl; lia. Qed.

Lemma alt_Permutation l : alt true l ++ alt false l ≡ₚ l.
Proof.
  induction l as [|x l IH]; [done|]. simpl. f_equiv.
  by rewrite (comm (++)).
Qed.

Lemma alt_snoc_even l y b :
  Nat.Even (length l) →
  alt b (l ++ [y]) = alt b l ++ (if b then [y] else []).
Proof.
  intros [m Hm]. revert l Hm b.
  induction m as [|m IH]; intros l Hm b.
  - destruct l; [|simpl in Hm; lia]. by destruct b.
  - destruct l as [|x [|x' l]]; try (simpl in Hm; lia).
    destruct b; simpl; rewrite IH by (simpl in Hm; lia); done.
Qed.

Lemma list_split_length l a b :
  length l = a + b → ∃ l1 l2, l = l1 ++ l2 ∧ length l1 = a ∧ length l2 = b.
Proof.
  intros Hl. exists (take a l), (drop a l).
  rewrite take_drop, length_take, length_drop. split_and!; [done|lia..].
Qed.

Lemma parity_cases n :
  ∃ m, (n = 2 * m ∧ n `mod` 2 = 0 ∧ n / 2 = m ∧ (n + 1) / 2 = m) ∨
       (n = 2 * m + 1 ∧ n `mod` 2 = 1 ∧ n / 2 = m ∧ (n + 1) / 2 = m + 1).
Proof.
  exists (n / 2).
  pose proof (Nat.div_mod_eq n 2).
  pose proof (Nat.mod_upper_bound n 2).
  pose proof (Nat.div_mod_eq (n + 1) 2).
  pose proof (Nat.mod_upper_bound (n + 1) 2).
  destruct (decide (n `mod` 2 = 0)); [left|right]; lia.
Qed.

End list_facts.

(** ** The vector primitives and the loops in closed form *)

Section loops.
Context {R : StdRandom}.
Implicit Types l d pre post src : list T.

Lemma write_middle pre post x y i :
  i = length pre →
  Vec.write (pre ++ y :: post) i x = Some (pre ++ x :: post).
Proof.
  intros ->. unfold Vec.write. rewrite decide_True.
  - rewrite insert_app_r_alt, Nat.sub_diag by lia. done.
  - rewrite length_app. simpl. lia.
Qed.

Lemma write_middle2 pre post x y z i :
  i = length pre + 1 →
  Vec.write (pre ++ z :: y :: post) i x = Some (pre ++ z :: x :: post).
Proof.
  intros ->. rewrite (cons_middle z pre), app_assoc.
  rewrite (write_middle (pre ++ [z])) by (rewrite length_app; done).
  by rewrite <-app_assoc.
Qed.

Lemma read_middle pre post x i :
  i = length pre → Vec.read (pre ++ x :: post) i = Some x.
Proof. intros ->. by apply list_lookup_middle. Qed.

Lemma read_middle2 pre post x y i :
  i = length pre + 1 → Vec.read (pre ++ y :: x :: post) i = Some x.
Proof.
  intros ->. rewrite (cons_middle y pre), app_assoc.
  apply read_middle. rewrite length_app. done.
Qed.

Lemma write_length v i x v' :
  Vec.write v i x = Some v' → length v' = length v.
Proof.
  unfold Vec.write. case_decide; intros; simplify_eq.
  by rewrite length_insert.
Qed.

Lemma copy_closed src pre mid post i :
  i = length pre → length mid = length src →
  Vec.copy src (pre ++ mid ++ post) i = Some (pre ++ src ++ post).
Proof.
  revert pre mid i. induction src as [|x src IH]; intros pre mid i -> Hlen.
  - by destruct mid.
  - destruct mid as [|y mid]; [done|]. simpl in Hlen.
    cbn [Vec.copy app]. rewrite write_middle by done. cbn [mbind option_bind].
    specialize (IH (pre ++ [x]) mid (S (length pre))).
    rewrite <-!app_assoc in IH. apply IH; [|lia].
    rewrite length_app. simpl. lia.
Qed.

Lemma copy_every_n_loop_closed cnt sp sr sx d1p d1r d2p d2r pos k :
  pos = length sp → k = length d1p → k = length d2p →
  length sr = 2 * cnt → length d1r = cnt → length d2r = cnt →
  copy_every_n_loop cnt (sp ++ sr ++ sx) pos (d1p ++ d1r) (d2p ++ d2r) k 2
  = Some (d1p ++ alt true sr, d2p ++ alt false sr).
Proof.
  revert sp sr d1p d1r d2p d2r pos k.
  induction cnt as [|cnt IH];
    intros sp sr d1p d1r d2p d2r pos k -> -> Hp Hsr H1 H2.
  - destruct sr, d1r, d2r; done.
  - destruct sr as [|x [|y sr]]; try (simpl in Hsr; lia).
    destruct d1r as [|a d1r]; [done|]. destruct d2r as [|b d2r]; [done|].
    simpl in Hsr, H1, H2.
    cbn [copy_every_n_loop app].
    rewrite (read_middle sp _ x (length sp)) by done.
    cbn [mbind option_bind].
    rewrite (write_middle d1p) by done. cbn [mbind option_bind].
    rewrite (read_middle2 sp _ y x) by done. cbn [mbind option_bind].
    rewrite (write_middle d2p) by done. cbn [mbind option_bind].
    specialize (IH (sp ++ [x; y]) sr (d1p ++ [x]) d1r (d2p ++ [y]) d2r
                  (length sp + 2) (S (length d1p))).
    rewrite <-!app_assoc in IH. cbn [app] in IH. cbn [alt].
    apply IH; rewrite ?length_app; simpl; lia.
Qed.

Lemma interleave_loop_in cnt vF vS d nIndex i :
  interleave_loop cnt INSHUFFLE vF vS d nIndex i =
  interleave_loop cnt OUTSHUFFLE vS vF d nIndex i.
Proof.
  revert d nIndex i. induction cnt as [|cnt IH]; intros; [done|].
  simpl. by destruct (Vec.read vS i ≫= _) as [deck2|]; simpl.
Qed.

Lemma interleave_loop_closed cnt Fp F Fx Sp Sv Sx pre rest nIndex i :
  nIndex = length pre → i = length Fp → i = length Sp →
  length F = cnt → length Sv = cnt → 2 * cnt ≤ length rest →
  interleave_loop cnt OUTSHUFFLE (Fp ++ F ++ Fx) (Sp ++ Sv ++ Sx)
    (pre ++ rest) nIndex i
  = Some (pre ++ riffle F Sv ++ drop (2 * cnt) rest).
Proof.
  revert Fp F Sp Sv pre rest nIndex i.
  induction cnt as [|cnt IH];
    intros Fp F Sp Sv pre rest nIndex i -> -> Hp HF HS Hrest.
  - destruct F, Sv; done.
  - destruct F as [|a F]; [done|]. destruct Sv as [|b Sv]; [done|].
    destruct rest as [|r1 [|r2 rest]]; try (simpl in Hrest; lia).
    simpl in HF, HS, Hrest.
    cbn [interleave_loop app]. rewrite decide_False by done.
    rewrite (read_middle Fp _ a (length Fp)) by done.
    cbn [mbind option_bind].
    rewrite (write_middle pre) by done. cbn [mbind option_bind].
    rewrite (read_middle Sp _ b (length Fp)) by done.
    cbn [mbind option_bind].
    rewrite (write_middle2 pre) by done. cbn [mbind option_bind].
    specialize (IH (Fp ++ [a]) F (Sp ++ [b]) Sv (pre ++ [a; b]) rest
                  (length pre + 2) (length Fp + 1)).
    rewrite <-!app_assoc in IH. cbn [app] in IH. cbn [riffle].
    replace (2 * S cnt) with (S (S (2 * cnt))) by lia. cbn [drop].
    apply IH; rewrite ?length_app; simpl; lia.
Qed.

End loops.

(** ** The class invariant and the shuffles in closed form *)

Section closed_forms.
Context {R : StdRandom}.
Implicit Types (s : CardShuffler) (d l : list T).

Lemma copy_at src dst i :
  i + length src ≤ length dst →
  Vec.copy src dst i
  = Some (take i dst ++ src ++ drop (i + length src) dst).
Proof.
  intros Hlen.
  rewrite <-(take_drop i dst) at 1.
  rewrite <-(take_drop (length src) (drop i dst)) at 1.
  rewrite drop_drop.
  apply copy_closed; rewrite length_take, ?length_drop; lia.
Qed.

Lemma copy_every_n_closed sp sr sx m a b :
  a = length sp → b = length sp + 2 * m → length sr = 2 * m →
  copy_every_n (sp ++ sr ++ sx) a b (replicate m 0) (replicate m 0) 2
  = Some (alt true sr, alt false sr).
Proof.
  intros -> -> Hsr. unfold copy_every_n.
  rewrite decide_True by (rewrite !length_app; lia).
  replace ((length sp + 2 * m - length sp) / 2) with m
    by (apply Nat.div_unique with 0; lia).
  apply (copy_every_n_loop_closed m sp sr sx [] _ [] _);
    rewrite ?length_replicate; done.
Qed.

Lemma interleave_loop_start cnt vF Fx vS Sx d :
  length vF = cnt → length vS = cnt → 2 * cnt ≤ length d →
  interleave_loop cnt OUTSHUFFLE (vF ++ Fx) (vS ++ Sx) d 0 0
  = Some (riffle vF vS ++ drop (2 * cnt) d).
Proof.
  intros. by apply (interleave_loop_closed cnt [] vF Fx [] vS Sx [] d).
Qed.

Lemma range_prefix l1 l2 b :
  b = length l1 → Vec.range (l1 ++ l2) 0 b = Some l1.
Proof.
  intros ->. unfold Vec.range.
  rewrite decide_True by (rewrite length_app; lia).
  by rewrite Nat.sub_0_r, drop_0, take_app_length.
Qed.

Lemma range_suffix l1 l2 a b :
  a = length l1 → b = length (l1 ++ l2) → Vec.range (l1 ++ l2) a b = Some l2.
Proof.
  intros -> ->. unfold Vec.range.
  rewrite decide_True by (rewrite length_app; lia).
  rewrite drop_app_length, take_ge; [done|]. rewrite length_app. lia.
Qed.

Lemma write_last pre y x i :
  i = length pre → Vec.write (pre ++ [y]) i x = Some (pre ++ [x]).
Proof. apply write_middle. Qed.

Lemma drop_singleton d n :
  length d = S n → ∃ y, drop n d = [y].
Proof.
  intros Hd. destruct (drop n d) as [|y [|??]] eqn:E; eauto.
  - apply (f_equal length) in E. rewrite length_drop in E. simpl in E. lia.
  - apply (f_equal length) in E. rewrite length_drop in E. simpl in E. lia.
Qed.

Lemma PerformShuffle_OUTSHUFFLE s :
  Invariant s →
  PerformShuffle OUTSHUFFLE s = Some (set_deck s (outshuffle (m_deck s))).
Proof.
  intros [Hsz Hodd]. unfold PerformShuffle, forward_half1, outshuffle.
  rewrite Hodd, Hsz, decide_False by done.
  destruct (parity_cases (length (m_deck s)))
    as [m [(HN & -> & _ & ->)|(HN & -> & _ & ->)]].
  - destruct (list_split_length (m_deck s) m m) as (F & Sv & Hd & HF & HS);
      [lia|]. rewrite Hd in *.
    rewrite range_prefix by done. cbn [mbind option_bind].
    rewrite range_suffix by (done || lia). cbn [mbind option_bind].
    replace (length (F ++ Sv) - m) with m by lia.
    rewrite Nat.min_id.
    rewrite <-(app_nil_r F) at 1. rewrite <-(app_nil_r Sv) at 1.
    rewrite interleave_loop_start by (done || lia).
    cbn [mbind option_bind]. rewrite bool_decide_false by done.
    rewrite drop_ge, app_nil_r by lia.
    by rewrite take_app_length', drop_app_length'.
  - destruct (list_split_length (m_deck s) (m + 1) m)
      as (F & Sv & Hd & HF & HS); [lia|].
    destruct (list_split_length F m 1) as (F' & Fx & -> & HF' & HFx);
      [lia|].
    destruct Fx as [|x [|??]]; try done. rewrite Hd in *.
    rewrite range_prefix by done. cbn [mbind option_bind].
    rewrite range_suffix by (done || lia). cbn [mbind option_bind].
    replace (length ((F' ++ [x]) ++ Sv) - (m + 1)) with m by lia.
    rewrite Nat.min_r by lia.
    rewrite <-(app_nil_r Sv) at 1.
    rewrite interleave_loop_start by (done || lia).
    cbn [mbind option_bind]. rewrite bool_decide_true by done.
    rewrite (read_middle F') by lia. cbn [mbind option_bind].
    destruct (drop_singleton ((F' ++ [x]) ++ Sv) (2 * m)) as [y ->]; [lia|].
    rewrite write_last by (rewrite riffle_length; lia).
    cbn [mbind option_bind].
    rewrite take_app_length', drop_app_length' by done.
    by rewrite riffle_snoc_l by lia.
Qed.

Lemma PerformShuffle_INSHUFFLE s :
  Invariant s →
  PerformShuffle INSHUFFLE s = Some (set_deck s (inshuffle (m_deck s))).
Proof.
  intros [Hsz Hodd]. unfold PerformShuffle, forward_half1, inshuffle.
  rewrite Hodd, Hsz, decide_True by done.
  destruct (parity_cases (length (m_deck s)))
    as [m [(HN & -> & -> & _)|(HN & -> & -> & _)]].
  - destruct (list_split_length (m_deck s) m m) as (F & Sv & Hd & HF & HS);
      [lia|]. rewrite Hd in *.
    rewrite range_prefix by done. cbn [mbind option_bind].
    rewrite range_suffix by (done || lia). cbn [mbind option_bind].
    replace (length (F ++ Sv) - m) with m by lia.
    rewrite Nat.min_id, interleave_loop_in.
    rewrite <-(app_nil_r F) at 1. rewrite <-(app_nil_r Sv) at 1.
    rewrite interleave_loop_start by (done || lia).
    cbn [mbind option_bind]. rewrite bool_decide_false by done.
    rewrite drop_ge, app_nil_r by lia.
    by rewrite take_app_length', drop_app_length'.
  - destruct (list_split_length (m_deck s) m (m + 1))
      as (F & Sv & Hd & HF & HS); [lia|].
    destruct (list_split_length Sv m 1) as (S' & Sx & -> & HS' & HSx);
      [lia|].
    destruct Sx as [|y [|??]]; try done. rewrite Hd in *.
    rewrite range_prefix by done. cbn [mbind option_bind].
    rewrite range_suffix by (done || lia). cbn [mbind option_bind].
    replace (length (F ++ S' ++ [y]) - m) with (m + 1) by lia.
    rewrite Nat.min_l, interleave_loop_in by lia.
    rewrite <-(app_nil_r F) at 1.
    rewrite interleave_loop_start by (done || lia).
    cbn [mbind option_bind]. rewrite bool_decide_true by done.
    rewrite (read_middle S') by lia. cbn [mbind option_bind].
    destruct (drop_singleton (F ++ S' ++ [y]) (2 * m)) as [z ->]; [lia|].
    rewrite write_last by (rewrite riffle_length; lia).
    cbn [mbind option_bind].
    rewrite take_app_length', drop_app_length' by done.
    by rewrite riffle_snoc_l by lia.
Qed.

Lemma PerformShuffle_INV_OUTSHUFFLE s :
  Invariant s →
  PerformShuffle INV_OUTSHUFFLE s
  = Some (set_deck s (inv_outshuffle (m_deck s))).
Proof.
  intros [Hsz Hodd]. unfold PerformShuffle, inverse_half1, inv_outshuffle.
  rewrite Hodd, Hsz, decide_False by done.
  destruct (parity_cases (length (m_deck s)))
    as [m [(HN & -> & _ & ->)|(HN & -> & -> & _)]].
  - rewrite bool_decide_false by done.
    replace (length (m_deck s) - m) with m by lia. rewrite Nat.min_id.
    destruct (alt_length (m_deck s)) as [Hsum Hle].
    rewrite <-(app_nil_r (m_deck s)) at 1.
    rewrite (copy_every_n_closed [] (m_deck s) [] m) by (done || lia).
    cbn [mbind option_bind].
    rewrite copy_at by lia. cbn [mbind option_bind].
    rewrite copy_at by (rewrite !length_app, length_drop; lia).
    cbn [mbind option_bind]. do 2 f_equal.
    rewrite take_0, Nat.add_0_l. cbn [app].
    rewrite take_app_length', drop_app_add' by lia.
    rewrite drop_drop, (drop_ge (m_deck s)), app_nil_r by lia. done.
  - rewrite bool_decide_true by done.
    replace (length (m_deck s) - m) with (m + 1) by lia.
    rewrite Nat.min_l by lia.
    destruct (m_deck s) as [|x t] eqn:Hd; [simpl in HN; lia|].
    simpl in HN. destruct (alt_length t) as [Hsum Hle].
    rewrite <-(app_nil_r t) at 1.
    rewrite (copy_every_n_closed [x] t [] m) by (simpl; lia).
    cbn [mbind option_bind].
    rewrite copy_at by (simpl; lia). cbn [mbind option_bind].
    rewrite copy_at by (simpl; rewrite !length_app, length_drop; lia).
    cbn [mbind option_bind]. do 2 f_equal.
    cbn [take app alt]. replace (m + 1) with (S m) by lia.
    cbn [take drop Nat.add app]. rewrite take_0. cbn [app]. f_equal.
    rewrite take_app_length', drop_app_add' by lia.
    rewrite drop_drop, (drop_ge t), app_nil_r by lia. done.
Qed.

Lemma PerformShuffle_INV_INSHUFFLE s :
  Invariant s →
  PerformShuffle INV_INSHUFFLE s
  = Some (set_deck s (inv_inshuffle (m_deck s))).
Proof.
  intros [Hsz Hodd]. unfold PerformShuffle, inverse_half1, inv_inshuffle.
  rewrite Hodd, Hsz, decide_True by done.
  destruct (parity_cases (length (m_deck s)))
    as [m [(HN & -> & _ & ->)|(HN & -> & -> & _)]].
  - rewrite bool_decide_false by done.
    replace (length (m_deck s) - m) with m by lia. rewrite Nat.min_id.
    destruct (alt_length (m_deck s)) as [Hsum Hle].
    rewrite <-(app_nil_r (m_deck s)) at 1.
    rewrite (copy_every_n_closed [] (m_deck s) [] m) by (done || lia).
    cbn [mbind option_bind].
    rewrite copy_at by lia. cbn [mbind option_bind].
    rewrite copy_at by (rewrite !length_app, length_drop; lia).
    cbn [mbind option_bind]. do 2 f_equal.
    rewrite take_0, Nat.add_0_l. cbn [app].
    rewrite take_app_length', drop_app_add' by lia.
    rewrite drop_drop, (drop_ge (m_deck s)), app_nil_r by lia. done.
  - rewrite bool_decide_true by done.
    replace (length (m_deck s) - m) with (m + 1) by lia.
    rewrite Nat.min_l by lia.
    destruct (list_split_length (m_deck s) (2 * m) 1)
      as (d' & dx & Hd & Hd' & Hdx); [lia|].
    destruct dx as [|y [|??]]; try done. rewrite Hd in *.
    destruct (alt_length d') as [Hsum Hle].
    replace (length (d' ++ [y]) - 1) with (2 * m)
      by (rewrite length_app; simpl; lia).
    rewrite (copy_every_n_closed [] d' [y] m) by (done || lia).
    cbn [mbind option_bind].
    rewrite copy_at by lia. cbn [mbind option_bind].
    rewrite copy_at by (rewrite !length_app, length_drop; lia).
    cbn [mbind option_bind]. do 2 f_equal.
    rewrite take_0, Nat.add_0_l. cbn [app].
    rewrite take_app_length', drop_app_add' by lia.
    rewrite drop_drop.
    replace (length (alt false d') + length (alt true d')) with (length d')
      by lia.
    rewrite drop_app_length.
    rewrite !alt_snoc_even by (exists m; lia). by rewrite app_nil_r.
Qed.

End closed_forms.

(** ** The riffle permutations: positions, lengths, inverses *)

Section riffle_facts.
Implicit Types l d : list T.

Lemma alt_lookup l k :
  alt true l !! k = l !! (2 * k) ∧ alt false l !! k = l !! (2 * k + 1).
Proof.
  revert k. induction l as [|x l IH]; intros k; [done|].
  cbn [alt]. split.
  - destruct k as [|k]; [done|].
    replace (2 * S k) with (S (2 * k + 1)) by lia.
    cbn [lookup list_lookup]. apply IH.
  - replace (2 * k + 1) with (S (2 * k)) by lia.
    cbn [lookup list_lookup]. apply IH.
Qed.

Lemma halves_balanced_out d :
  let half1 := (length d + 1) / 2 in
  length (drop half1 d) ≤ length (take half1 d) ≤ S (length (drop half1 d)).
Proof.
  intros half1. subst half1. rewrite length_take, length_drop.
  destruct (parity_cases (length d)) as [m [(? & _ & _ & ->)|(? & _ & _ & ->)]];
    lia.
Qed.

Lemma halves_balanced_in d :
  let half1 := length d / 2 in
  length (take half1 d) ≤ length (drop half1 d) ≤ S (length (take half1 d)).
Proof.
  intros half1. subst half1. rewrite length_take, length_drop.
  destruct (parity_cases (length d)) as [m [(? & _ & -> & _)|(? & _ & -> & _)]];
    lia.
Qed.

Lemma inv_outshuffle_outshuffle d : inv_outshuffle (outshuffle d) = d.
Proof.
  unfold inv_outshuffle, outshuffle.
  destruct (alt_riffle (take ((length d + 1) / 2) d)
              (drop ((length d + 1) / 2) d)) as [-> ->].
  - apply halves_balanced_out.
  - apply take_drop.
Qed.

Lemma inv_inshuffle_inshuffle d : inv_inshuffle (inshuffle d) = d.
Proof.
  unfold inv_inshuffle, inshuffle.
  destruct (alt_riffle (drop (length d / 2) d) (take (length d / 2) d))
    as [-> ->].
  - apply halves_balanced_in.
  - apply take_drop.
Qed.

Lemma riffle_perm_Permutation k d : riffle_perm k d ≡ₚ d.
Proof.
  destruct k; cbn [riffle_perm]; try done.
  - unfold outshuffle. by rewrite riffle_Permutation, take_drop.
  - unfold inshuffle.
    by rewrite riffle_Permutation, (comm (++)), take_drop.
  - apply alt_Permutation.
  - unfold inv_inshuffle. rewrite (comm (++)). apply alt_Permutation.
Qed.

Lemma riffle_perm_length k d : length (riffle_perm k d) = length d.
Proof. apply Permutation_length, riffle_perm_Permutation. Qed.

Lemma is_sorted_seq a n : Vec.is_sorted (seq a n) = true.
Proof.
  revert a. induction n as [|n IH]; intros a; [done|].
  cbn [seq Vec.is_sorted]. specialize (IH (S a)).
  destruct n as [|n]; [done|]. cbn [seq] in *. rewrite IH.
  rewrite andb_true_r. apply negb_true_iff, Nat.ltb_ge. lia.
Qed.

End riffle_facts.

(** ** The member functions keep the invariant *)

Section members.
Context {R : StdRandom}.
Implicit Types (s : CardShuffler) (d l : list T).

Lemma uint_succ_below i : (N.of_nat i < UINT_MAX)%N → uint_succ i = S i.
Proof. intros Hi. unfold uint_succ. rewrite decide_False; [done|lia]. Qed.

Lemma uint_succ_range i :
  (N.of_nat i ≤ UINT_MAX)%N → (N.of_nat (uint_succ i) ≤ UINT_MAX)%N.
Proof. intros Hi. unfold uint_succ. case_decide; unfold UINT_MAX in *; lia. Qed.

(** Within the range of the counter the loop ends after [size - i] passes
    and has pushed [i], [i + 1], ..., [size - 1]. *)
Lemma push_back_loop_seq fuel size i v :
  i ≤ size → size - i ≤ fuel → (N.of_nat size ≤ UINT_MAX)%N →
  push_back_loop fuel size i v = Some (v ++ seq i (size - i)).
Proof.
  revert i v. induction fuel as [|fuel IH]; intros i v Hi Hfuel Hsize.
  - cbn [push_back_loop]. rewrite decide_False by lia.
    replace (size - i) with 0 by lia. by rewrite app_nil_r.
  - cbn [push_back_loop]. case_decide as Hlt.
    + rewrite uint_succ_below by lia. rewrite IH by lia.
      replace (size - i) with (S (size - S i)) by lia.
      cbn [seq]. by rewrite <-app_assoc.
    + replace (size - i) with 0 by lia. by rewrite app_nil_r.
Qed.

(** Above the range of the counter no number of passes ends the loop. *)
Lemma push_back_loop_never fuel size i v :
  (UINT_MAX < N.of_nat size)%N → (N.of_nat i ≤ UINT_MAX)%N →
  push_back_loop fuel size i v = None.
Proof.
  intros Hsize. revert i v. induction fuel as [|fuel IH]; intros i v Hi.
  - cbn [push_back_loop]. by rewrite decide_True by lia.
  - cbn [push_back_loop]. rewrite decide_True by lia.
    apply IH. by apply uint_succ_range.
Qed.

Lemma GenerateDeck_fail size s :
  size < MIN_DECK_SIZE → GenerateDeck size s = Some ([], s).
Proof. intros. unfold GenerateDeck. by rewrite decide_True. Qed.

Lemma GenerateDeck_ok size s :
  MIN_DECK_SIZE ≤ size → (N.of_nat size ≤ UINT_MAX)%N →
  GenerateDeck size s =
    Some (seq 0 size,
          mkCardShuffler (seq 0 size) [] (bool_decide (size `mod` 2 = 1)) size
            (m_FirstHalfIndex s) (m_SecondHalfIndex s) (m_MinVectorSize s)
            (m_urng s)).
Proof.
  intros Hmin Hmax. unfold GenerateDeck. rewrite decide_False by lia.
  rewrite push_back_loop_seq by lia. cbn [app mbind option_bind].
  by rewrite Nat.sub_0_r.
Qed.

Lemma GenerateDeck_too_large size s :
  (UINT_MAX < N.of_nat size)%N → GenerateDeck size s = None.
Proof.
  intros Hsize. unfold GenerateDeck.
  rewrite decide_False by (unfold MIN_DECK_SIZE, UINT_MAX in *; lia).
  by rewrite push_back_loop_never by (done || unfold UINT_MAX; lia).
Qed.

Lemma GenerateDeck_Some size s deck s' :
  GenerateDeck size s = Some (deck, s') →
  (size < MIN_DECK_SIZE ∧ deck = [] ∧ s' = s) ∨
  (MIN_DECK_SIZE ≤ size ∧ deck = seq 0 size ∧
   s' = mkCardShuffler (seq 0 size) [] (bool_decide (size `mod` 2 = 1)) size
          (m_FirstHalfIndex s) (m_SecondHalfIndex s) (m_MinVectorSize s)
          (m_urng s)).
Proof.
  intros Hgen. destruct (decide (size < MIN_DECK_SIZE)) as [Hsmall|Hbig].
  - rewrite GenerateDeck_fail in Hgen by done. left. by simplify_eq.
  - destruct (decide (N.of_nat size ≤ UINT_MAX)%N) as [Hfit|Hlarge].
    + rewrite GenerateDeck_ok in Hgen by lia. right.
      split; [lia|]. by simplify_eq.
    + rewrite GenerateDeck_too_large in Hgen by lia. done.
Qed.

Lemma ctor_Invariant now : Invariant (CardShuffler_ctor now).
Proof. by split. Qed.

Lemma GenerateDeck_Invariant size s deck s' :
  Invariant s → GenerateDeck size s = Some (deck, s') → Invariant s'.
Proof.
  intros Hs [(_ & _ & ->)|(_ & _ & ->)]%GenerateDeck_Some; [done|].
  split; cbn; [|done]. by rewrite length_seq.
Qed.

Lemma ResetDeck_Some s s' :
  ResetDeck s = Some s' →
  ∃ deck, GenerateDeck (length (m_deck s)) s = Some (deck, s').
Proof.
  unfold ResetDeck. intros Hreset.
  destruct (GenerateDeck (length (m_deck s)) s) as [[deck s1]|]; [|done].
  cbn in Hreset. simplify_eq. by exists deck.
Qed.

Lemma set_deck_Invariant s d :
  Invariant s → length d = length (m_deck s) → Invariant (set_deck s d).
Proof. intros [Hsz Hodd] Hd. split; cbn; [by rewrite Hd|done]. Qed.

Lemma set_deck_urng_Invariant s d g :
  Invariant s → length d = length (m_deck s) →
  Invariant (set_deck_urng s d g).
Proof. intros [Hsz Hodd] Hd. split; cbn; [by rewrite Hd|done]. Qed.

Lemma PerformShuffle_riffle k s :
  is_riffle k = true → Invariant s →
  PerformShuffle k s = Some (set_deck s (riffle_perm k (m_deck s))).
Proof.
  intros Hk Hs. destruct k; try done; cbn [riffle_perm].
  - by apply PerformShuffle_OUTSHUFFLE.
  - by apply PerformShuffle_INSHUFFLE.
  - by apply PerformShuffle_INV_OUTSHUFFLE.
  - by apply PerformShuffle_INV_INSHUFFLE.
Qed.

Lemma swap_Permutation v i j :
  i < length v → j < length v →
  ∃ v', Vec.swap v i j = Some v' ∧ v' ≡ₚ v.
Proof.
  intros Hi Hj. unfold Vec.swap, Vec.read, Vec.write.
  destruct (lookup_lt_is_Some_2 v i Hi) as [x Hx].
  destruct (lookup_lt_is_Some_2 v j Hj) as [y Hy].
  rewrite Hx, Hy. cbn [mbind option_bind].
  rewrite decide_True by done. cbn [mbind option_bind].
  rewrite decide_True by (by rewrite length_insert).
  eexists; split; [done|]. by apply Permutation_insert_swap.
Qed.

Lemma swap_length v i j v' :
  Vec.swap v i j = Some v' → length v' = length v.
Proof.
  unfold Vec.swap. intros Hswap.
  destruct (Vec.read v i) as [x|]; [|done].
  destruct (Vec.read v j) as [y|]; [|done]. cbn in Hswap.
  destruct (Vec.write v i y) as [v1|] eqn:H1; [|done]. cbn in Hswap.
  apply write_length in Hswap, H1. congruence.
Qed.

Lemma fisher_yates_loop_length i deck g deck' g' :
  fisher_yates_loop i deck g = Some (deck', g') →
  length deck' = length deck.
Proof.
  revert deck g. induction i as [|i IH]; intros deck g Hloop.
  - cbn in Hloop. by simplify_eq.
  - cbn [fisher_yates_loop] in Hloop.
    destruct (uniform_int_distribution 0 (S i) g) as [swapIndex g1].
    destruct (Vec.swap deck (S i) swapIndex) as [deck1|] eqn:Hswap;
      [|done]. cbn in Hloop.
    apply IH in Hloop. apply swap_length in Hswap. congruence.
Qed.

Lemma fisher_yates_loop_Permutation `{!StdRandomSpec R} i deck g :
  i < length deck →
  ∃ deck' g', fisher_yates_loop i deck g = Some (deck', g') ∧
              deck' ≡ₚ deck.
Proof.
  revert deck g. induction i as [|i IH]; intros deck g Hi.
  - by exists deck, g.
  - cbn [fisher_yates_loop].
    pose proof (uniform_int_range 0 (S i) g) as Hrange.
    destruct (uniform_int_distribution 0 (S i) g) as [swapIndex g1].
    cbn in Hrange.
    destruct (swap_Permutation deck (S i) swapIndex) as (deck1 & -> & Hp1);
      [lia..|].
    cbn [mbind option_bind].
    destruct (IH deck1 g1) as (deck' & g' & -> & Hp).
    + apply Permutation_length in Hp1. lia.
    + exists deck', g'. split; [done|]. by rewrite Hp.
Qed.

(** Every shuffle of an object that satisfies the invariant returns, and
    its deck is a permutation of the deck before. *)
Lemma PerformShuffle_Permutation `{!StdRandomSpec R} k s :
  Invariant s → 0 < length (m_deck s) →
  ∃ s', PerformShuffle k s = Some s' ∧ m_deck s' ≡ₚ m_deck s ∧ Invariant s'.
Proof.
  intros Hs Hlen. destruct (is_riffle k) eqn:Hk.
  - rewrite PerformShuffle_riffle by done.
    eexists; split_and!; [done|apply riffle_perm_Permutation|].
    apply set_deck_Invariant, riffle_perm_length. done.
  - pose proof (inv_size _ Hs) as Hsz.
    destruct k; try done; cbn [PerformShuffle].
    + pose proof (std_shuffle_perm (m_deck s) (m_urng s)) as Hp.
      destruct (std_shuffle (m_deck s) (m_urng s)) as [deck g]. cbn in Hp.
      eexists; split_and!; [done..|].
      apply set_deck_urng_Invariant; [done|]. by apply Permutation_length.
    + rewrite decide_False by lia.
      destruct (fisher_yates_loop_Permutation (m_deckSize s - 1)
                  (m_deck s) (m_urng s)) as (deck & g & -> & Hp); [lia|].
      cbn. eexists; split_and!; [done..|].
      apply set_deck_urng_Invariant; [done|]. by apply Permutation_length.
Qed.

Lemma PerformShuffle_Invariant `{!StdRandomSpec R} k s s' :
  Invariant s → PerformShuffle k s = Some s' → Invariant s'.
Proof.
  intros Hs Hk. destruct (is_riffle k) eqn:Hr.
  - rewrite PerformShuffle_riffle in Hk by done. simplify_eq.
    apply set_deck_Invariant, riffle_perm_length. done.
  - destruct k; try done; cbn [PerformShuffle] in Hk.
    + pose proof (std_shuffle_perm (m_deck s) (m_urng s)) as Hp.
      destruct (std_shuffle (m_deck s) (m_urng s)) as [deck g]. cbn in Hp.
      simplify_eq. apply set_deck_urng_Invariant; [done|].
      by apply Permutation_length.
    + case_decide; [done|].
      destruct (fisher_yates_loop _ _ _) as [[deck g]|] eqn:Hloop; [|done].
      cbn in Hk. simplify_eq. apply set_deck_urng_Invariant; [done|].
      by eapply fisher_yates_loop_length.
Qed.

Lemma RestoreDeck_loop_Invariant `{!StdRandomSpec R} fuel k n s n' s' :
  Invariant s → RestoreDeck_loop fuel k n s = Some (n', s') → Invariant s'.
Proof.
  revert n s. induction fuel as [|fuel IH]; intros n s Hs Hloop; [done|].
  cbn [RestoreDeck_loop] in Hloop.
  destruct (PerformShuffle k s) as [s1|] eqn:Hk; [|done]. cbn in Hloop.
  apply PerformShuffle_Invariant in Hk; [|done].
  destruct (IsDeckRestored s1); simplify_eq; eauto.
Qed.

Lemma call_Invariant `{!StdRandomSpec R} s s' :
  Invariant s → call s s' → Invariant s'.
Proof.
  intros Hs Hcall. destruct Hcall as [| ?? [deck ?]%ResetDeck_Some | |].
  - by eapply GenerateDeck_Invariant.
  - by eapply GenerateDeck_Invariant.
  - by eapply PerformShuffle_Invariant.
  - by eapply RestoreDeck_loop_Invariant.
Qed.

Lemma reachable_Invariant `{!StdRandomSpec R} s : reachable s → Invariant s.
Proof.
  induction 1 as [now|s s' _ IH Hcall].
  - apply ctor_Invariant.
  - by eapply call_Invariant.
Qed.

End members.

(** ** The sample library meets the guarantees of the standard *)

Lemma sample_engine_spec : StdRandomSpec Sample.engine.
Proof.
  split.
  - intros a b g Hab. cbn.
    assert (Sample.next g `mod` N.of_nat (b - a + 1)
            < N.of_nat (b - a + 1))%N as Hdraw
      by (apply N.mod_upper_bound; lia).
    revert Hdraw. generalize (Sample.next g `mod` N.of_nat (b - a + 1))%N.
    intros draw Hdraw. lia.
  - intros l g. cbn. apply reverse_Permutation.
Qed.

(** ** Runs of the model on small decks *)

Example fisher_yates_on_empty_deck :
  PerformShuffle FISHER_YATES (CardShuffler_ctor (R := Sample.engine) 0) = None.
Proof. reflexivity. Qed.

Example riffle_on_empty_deck :
  PerformShuffle OUTSHUFFLE (CardShuffler_ctor (R := Sample.engine) 0)
  = Some (CardShuffler_ctor 0).
Proof. reflexivity. Qed.

Example inshuffle_odd_deck :
  GetDeck <$> ((snd <$> GenerateDeck 5 Sample.odd_deck)
               ≫= PerformShuffle INSHUFFLE)
  = Some [2; 0; 3; 1; 4].
Proof. reflexivity. Qed.

Example inv_inshuffle_odd_deck :
  GetDeck <$> (((snd <$> GenerateDeck 5 Sample.odd_deck)
                ≫= PerformShuffle INSHUFFLE) ≫= PerformShuffle INV_INSHUFFLE)
  = Some [0; 1; 2; 3; 4].
Proof. reflexivity. Qed.

Example fisher_yates_even_deck :
  GetDeck <$> PerformShuffle FISHER_YATES Sample.even_deck
  = Some [5; 1; 0; 3; 2; 4].
Proof. vm_compute. reflexivity. Qed.

Example reset_deck :
  GetDeck <$> ResetDeck Sample.even_deck = Some [0; 1; 2; 3; 4; 5].
Proof. reflexivity. Qed.

Example restore_small_decks :
  fst <$> ((snd <$> GenerateDeck 5 Sample.odd_deck)
           ≫= RestoreDeck 10 OUTSHUFFLE) = Some 4 ∧
  fst <$> ((snd <$> GenerateDeck 6 Sample.odd_deck)
           ≫= RestoreDeck 10 INSHUFFLE) = Some 3.
Proof. split; vm_compute; reflexivity. Qed.

(** ** The claims *)

Section claims.
Context {R : StdRandom}.
Implicit Types (s : CardShuffler) (d l : list T).

Lemma set_deck_id s : set_deck s (m_deck s) = s.
Proof. by destruct s. Qed.

Lemma set_deck_set_deck s d1 d2 :
  set_deck (set_deck s d1) d2 = set_deck s d2.
Proof. done. Qed.

Lemma outshuffle_round_trip s :
  Invariant s →
  PerformShuffle OUTSHUFFLE s ≫= PerformShuffle INV_OUTSHUFFLE = Some s.
Proof.
  intros Hs. rewrite PerformShuffle_OUTSHUFFLE by done.
  cbn [mbind option_bind]. rewrite PerformShuffle_INV_OUTSHUFFLE.
  - rewrite set_deck_set_deck. cbn [set_deck m_deck].
    rewrite inv_outshuffle_outshuffle. by destruct s.
  - apply set_deck_Invariant; [done|].
    apply (riffle_perm_length OUTSHUFFLE).
Qed.

Lemma inshuffle_round_trip s :
  Invariant s →
  PerformShuffle INSHUFFLE s ≫= PerformShuffle INV_INSHUFFLE = Some s.
Proof.
  intros Hs. rewrite PerformShuffle_INSHUFFLE by done.
  cbn [mbind option_bind]. rewrite PerformShuffle_INV_INSHUFFLE.
  - rewrite set_deck_set_deck. cbn [set_deck m_deck].
    rewrite inv_inshuffle_inshuffle. by destruct s.
  - apply set_deck_Invariant; [done|].
    apply (riffle_perm_length INSHUFFLE).
Qed.

(** C1. Round trip: for every deck size [N >= 3], even or odd, and every
    arrangement of the cards [0 .. N-1], an out-shuffle followed by an
    inverse out-shuffle returns, and leaves the object, hence the deck,
    exactly as it was before the two calls; the same holds for an
    in-shuffle followed by an inverse in-shuffle. *)
Theorem C1_riffle_round_trip s N :
  Invariant s → 3 ≤ N → m_deck s ≡ₚ seq 0 N →
  PerformShuffle OUTSHUFFLE s ≫= PerformShuffle INV_OUTSHUFFLE = Some s ∧
  PerformShuffle INSHUFFLE s ≫= PerformShuffle INV_INSHUFFLE = Some s.
Proof.
  intros Hs _ _. split.
  - by apply outshuffle_round_trip.
  - by apply inshuffle_round_trip.
Qed.

(** C2. On the canonical deck of 52 cards, [RestoreDeck] with the
    out-shuffle returns exactly 8 and with the in-shuffle exactly 52,
    whenever the loop is given at least that many iterations, and with
    fewer iterations it has not met a restored deck; the counter is 1 after
    the first shuffle and the loop stops at the first deck that
    [IsDeckRestored] accepts, which is the canonical deck again. *)
Theorem C2_restore_52 s fuel :
  ∃ canonical,
    GenerateDeck 52 s = Some (seq 0 52, canonical) ∧
    RestoreDeck (8 + fuel) OUTSHUFFLE canonical = Some (8, canonical) ∧
    RestoreDeck 7 OUTSHUFFLE canonical = None ∧
    RestoreDeck (52 + fuel) INSHUFFLE canonical = Some (52, canonical) ∧
    RestoreDeck 51 INSHUFFLE canonical = None.
Proof.
  exists (mkCardShuffler (seq 0 52) [] false 52 (m_FirstHalfIndex s)
            (m_SecondHalfIndex s) (m_MinVectorSize s) (m_urng s)).
  split_and!; vm_compute; reflexivity.
Qed.

(** C3 (amended). For every odd deck size [N >= 3] and every arrangement,
    the inverse out-shuffle returns and leaves position 0 untouched; it
    deinterleaves positions 1 .. N-1 into [A], the cards at positions
    1, 3, 5, ..., and [B], the cards at positions 2, 4, 6, ..., and writes
    [B] followed by [A] into positions 1 .. N-1; its [half1] is the floor of
    N/2, the size of both [A] and [B]. *)
Theorem C3_inv_outshuffle_odd s N :
  Invariant s → 3 ≤ N → length (m_deck s) = N → N `mod` 2 = 1 →
  ∃ s' A B, PerformShuffle INV_OUTSHUFFLE s = Some s' ∧
    inverse_half1 s = N / 2 ∧ length A = N / 2 ∧ length B = N / 2 ∧
    (∀ k, k < N / 2 →
       A !! k = m_deck s !! (1 + 2 * k) ∧ B !! k = m_deck s !! (2 + 2 * k)) ∧
    m_deck s' = take 1 (m_deck s) ++ B ++ A.
Proof.
  intros Hs HN Hlen Hodd.
  rewrite PerformShuffle_INV_OUTSHUFFLE by done.
  destruct (parity_cases N) as [h [(? & ? & _)|(HN2 & _ & Hh & _)]]; [lia|].
  assert (inverse_half1 s = N / 2) as Hhalf.
  { unfold inverse_half1. destruct Hs as [-> ->].
    by rewrite Hlen, bool_decide_true. }
  destruct (m_deck s) as [|x t] eqn:Hd; [simpl in Hlen; lia|].
  simpl in Hlen. destruct (alt_length t) as [Hsum Hle].
  exists (set_deck s (inv_outshuffle (x :: t))), (alt true t), (alt false t).
  rewrite Hh. split_and!; [done|congruence|lia|lia| |].
  - intros k Hk. split.
    + replace (1 + 2 * k) with (S (2 * k)) by lia. apply alt_lookup.
    + replace (2 + 2 * k) with (S (2 * k + 1)) by lia. apply alt_lookup.
  - done.
Qed.

(** C4. For every deck size [N >= 3] and every arrangement of the cards
    [0 .. N-1], each of the six shuffles returns and leaves a deck that is
    a permutation of the deck before, hence of [0 .. N-1], with the same
    [N] cards: none added, removed or duplicated. *)
Theorem C4_shuffle_Permutation {HR : StdRandomSpec R} k s N :
  Invariant s → 3 ≤ N → m_deck s ≡ₚ seq 0 N →
  ∃ s', PerformShuffle k s = Some s' ∧
    m_deck s' ≡ₚ m_deck s ∧ m_deck s' ≡ₚ seq 0 N ∧
    length (m_deck s') = N.
Proof.
  intros Hs HN Hperm.
  pose proof (Permutation_length Hperm) as Hlen. rewrite length_seq in Hlen.
  destruct (PerformShuffle_Permutation k s) as (s' & Hk & Hp & _);
    [done|lia|].
  exists s'. split_and!; [done..| |].
  - by rewrite Hp.
  - apply Permutation_length in Hp. lia.
Qed.

(** C5 (amended). For every [N] with [3 <= N <= INT_MAX], the sizes whose
    cards a 32-bit [int] holds and which the [unsigned int] counter of the
    loop reaches, [GenerateDeck N] returns the ascending sequence
    [0 .. N-1]; the deck of the object is that sequence, of exactly [N]
    cards, whatever it held before; and [IsDeckRestored] is true right
    after. *)
Theorem C5_generate s N :
  3 ≤ N → (N.of_nat N ≤ INT_MAX)%N →
  ∃ s', GenerateDeck N s = Some (seq 0 N, s') ∧
    GetDeck s' = seq 0 N ∧
    length (GetDeck s') = N ∧
    IsDeckRestored s' = true.
Proof.
  intros HN Hmax.
  rewrite GenerateDeck_ok by (done || unfold INT_MAX, UINT_MAX in *; lia).
  eexists; split; [done|].
  unfold IsDeckRestored, GetDeck. cbn [m_deck].
  split_and!; [done|apply length_seq|apply is_sorted_seq].
Qed.

(** C6. For every [N < 3], [GenerateDeck N] returns normally (the result
    is [Some _]: no exception) and what it returns is an empty deck,
    of size 0; on a freshly constructed object the deck that [GetDeck]
    returns afterwards is empty as well. *)
Theorem C6_generate_undersized s N now :
  N < 3 →
  fst <$> GenerateDeck N s = Some [] ∧
  length ∘ fst <$> GenerateDeck N s = Some 0 ∧
  GetDeck ∘ snd <$> GenerateDeck N (CardShuffler_ctor now) = Some [].
Proof. intros HN. by rewrite !GenerateDeck_fail. Qed.

(** C7. The four riffle shuffles are deterministic and never consult the
    random engine: on two objects that hold equal decks (hence of the same
    size and parity), whatever the states of their engines, the shuffle
    returns on both, the resulting decks are equal, and each engine is in
    the state it was in before. *)
Theorem C7_riffle_deterministic k s1 s2 :
  is_riffle k = true → Invariant s1 → Invariant s2 →
  m_deck s1 = m_deck s2 →
  ∃ s1' s2', PerformShuffle k s1 = Some s1' ∧
    PerformShuffle k s2 = Some s2' ∧
    m_deck s1' = m_deck s2' ∧
    m_urng s1' = m_urng s1 ∧ m_urng s2' = m_urng s2.
Proof.
  intros Hk Hs1 Hs2 Hd. rewrite !PerformShuffle_riffle by done.
  eexists _, _. split_and!; [done..| | |]; cbn; [|done..].
  by rewrite Hd.
Qed.

(** C8. On the canonical deck [0,1,2,3,4] the out-shuffle (half1 = 3)
    yields [0,3,1,4,2], and the inverse out-shuffle of that deck yields
    [0,1,2,3,4]; on the canonical deck [0,1,2,3,4,5] the in-shuffle
    (half1 = 3) yields [3,0,4,1,5,2]. *)
Theorem C8_small_cases s :
  ∃ deck5 deck6,
  GenerateDeck 5 s = Some ([0; 1; 2; 3; 4], deck5) ∧
  GenerateDeck 6 s = Some ([0; 1; 2; 3; 4; 5], deck6) ∧
  GetDeck deck5 = [0; 1; 2; 3; 4] ∧
  forward_half1 OUTSHUFFLE deck5 = 3 ∧
  GetDeck <$> PerformShuffle OUTSHUFFLE deck5 = Some [0; 3; 1; 4; 2] ∧
  GetDeck <$> (PerformShuffle OUTSHUFFLE deck5
               ≫= PerformShuffle INV_OUTSHUFFLE) = Some [0; 1; 2; 3; 4] ∧
  GetDeck deck6 = [0; 1; 2; 3; 4; 5] ∧
  forward_half1 INSHUFFLE deck6 = 3 ∧
  GetDeck <$> PerformShuffle INSHUFFLE deck6 = Some [3; 0; 4; 1; 5; 2].
Proof.
  exists (mkCardShuffler (seq 0 5) [] true 5 (m_FirstHalfIndex s)
            (m_SecondHalfIndex s) (m_MinVectorSize s) (m_urng s)),
         (mkCardShuffler (seq 0 6) [] false 6 (m_FirstHalfIndex s)
            (m_SecondHalfIndex s) (m_MinVectorSize s) (m_urng s)).
  split_and!; vm_compute; reflexivity.
Qed.

(** C9. A failed [GenerateDeck] (size below 3) returns an empty sequence
    and leaves the object as it was: the deck, the recorded size and the
    parity flag are unchanged, so [GetDeck] returns the arrangement it
    returned before the call. *)
Theorem C9_failed_generate_keeps_state s N :
  N < 3 →
  GenerateDeck N s = Some ([], s) ∧
  GetDeck ∘ snd <$> GenerateDeck N s = Some (GetDeck s) ∧
  m_deckSize ∘ snd <$> GenerateDeck N s = Some (m_deckSize s) ∧
  m_bIsDeckOdd ∘ snd <$> GenerateDeck N s = Some (m_bIsDeckOdd s).
Proof. intros HN. by rewrite !GenerateDeck_fail. Qed.

Lemma generate_all_fail sizes s :
  Forall (λ size, size < MIN_DECK_SIZE) sizes →
  generate_all sizes s = Some s.
Proof.
  intros Hall. revert s.
  induction Hall as [|size sizes Hsize _ IH]; intros s; [done|].
  cbn [generate_all]. rewrite GenerateDeck_fail by done. apply IH.
Qed.

(** C10. On an object whose deck is empty, that is freshly constructed
    ([sizes] empty) or after failed [GenerateDeck] calls only,
    [IsDeckRestored] returns true: the empty deck counts as sorted. *)
Theorem C10_empty_deck_restored now sizes :
  Forall (λ size, size < 3) sizes →
  GetDeck <$> generate_all sizes (CardShuffler_ctor now) = Some [] ∧
  IsDeckRestored <$> generate_all sizes (CardShuffler_ctor now) = Some true.
Proof. intros Hall. by rewrite generate_all_fail. Qed.

End claims.

(** ** The claims at concrete inputs *)

Lemma C1_riffle_round_trip_witness :
  (Invariant Sample.odd_deck ∧
   PerformShuffle OUTSHUFFLE Sample.odd_deck ≫= PerformShuffle INV_OUTSHUFFLE
     = Some Sample.odd_deck ∧
   PerformShuffle INSHUFFLE Sample.odd_deck ≫= PerformShuffle INV_INSHUFFLE
     = Some Sample.odd_deck) ∧
  (Invariant Sample.even_deck ∧
   PerformShuffle OUTSHUFFLE Sample.even_deck ≫= PerformShuffle INV_OUTSHUFFLE
     = Some Sample.even_deck ∧
   PerformShuffle INSHUFFLE Sample.even_deck ≫= PerformShuffle INV_INSHUFFLE
     = Some Sample.even_deck).
Proof.
  split.
  - split; [split; reflexivity|].
    apply (C1_riffle_round_trip Sample.odd_deck 5).
    + split; reflexivity.
    + lia.
    + apply (bool_decide_unpack _). vm_compute. exact I.
  - split; [split; reflexivity|].
    apply (C1_riffle_round_trip Sample.even_deck 6).
    + split; reflexivity.
    + lia.
    + apply (bool_decide_unpack _). vm_compute. exact I.
Defined.

(** C3 as the specification states it fails on the deck [0,3,1,4,2]: the
    code yields [0,1,2,3,4], the specification's words yield [0,3,4,1,2],
    and the code's [half1] is 2 where the specification's is 3.  The order
    of the specification would not undo the out-shuffle of [0,1,2,3,4]. *)
Lemma C3_counterexample :
  Invariant Sample.odd_deck ∧
  m_bIsDeckOdd Sample.odd_deck = true ∧
  GetDeck <$> PerformShuffle INV_OUTSHUFFLE Sample.odd_deck
    = Some [0; 1; 2; 3; 4] ∧
  spec_inv_outshuffle_odd (GetDeck Sample.odd_deck) = [0; 3; 4; 1; 2] ∧
  GetDeck <$> PerformShuffle INV_OUTSHUFFLE Sample.odd_deck
    ≠ Some (spec_inv_outshuffle_odd (GetDeck Sample.odd_deck)) ∧
  inverse_half1 Sample.odd_deck = 2 ∧
  spec_inverse_half1 (m_deckSize Sample.odd_deck) = 3 ∧
  inverse_half1 Sample.odd_deck
    ≠ spec_inverse_half1 (m_deckSize Sample.odd_deck) ∧
  spec_inv_outshuffle_odd (outshuffle [0; 1; 2; 3; 4]) ≠ [0; 1; 2; 3; 4].
Proof.
  split; [split; reflexivity|].
  split_and!; try (vm_compute; reflexivity); vm_compute; discriminate.
Qed.

Lemma C3_inv_outshuffle_odd_witness :
  ∃ s' A B, PerformShuffle INV_OUTSHUFFLE Sample.odd_deck = Some s' ∧
    inverse_half1 Sample.odd_deck = 5 / 2 ∧
    length A = 5 / 2 ∧ length B = 5 / 2 ∧
    (∀ k, k < 5 / 2 →
       A !! k = m_deck Sample.odd_deck !! (1 + 2 * k) ∧
       B !! k = m_deck Sample.odd_deck !! (2 + 2 * k)) ∧
    m_deck s' = take 1 (m_deck Sample.odd_deck) ++ B ++ A.
Proof.
  apply (C3_inv_outshuffle_odd Sample.odd_deck 5).
  - split; reflexivity.
  - lia.
  - reflexivity.
  - reflexivity.
Defined.

Lemma C4_shuffle_Permutation_witness :
  (∃ s', PerformShuffle FISHER_YATES Sample.even_deck = Some s' ∧
     m_deck s' ≡ₚ m_deck Sample.even_deck ∧ m_deck s' ≡ₚ seq 0 6 ∧
     length (m_deck s') = 6) ∧
  (∃ s', PerformShuffle INV_INSHUFFLE Sample.even_deck = Some s' ∧
     m_deck s' ≡ₚ m_deck Sample.even_deck ∧ m_deck s' ≡ₚ seq 0 6 ∧
     length (m_deck s') = 6).
Proof.
  split.
  - apply (C4_shuffle_Permutation (HR := sample_engine_spec) FISHER_YATES
             Sample.even_deck 6).
    + split; reflexivity.
    + lia.
    + apply (bool_decide_unpack _). vm_compute. exact I.
  - apply (C4_shuffle_Permutation (HR := sample_engine_spec) INV_INSHUFFLE
             Sample.even_deck 6).
    + split; reflexivity.
    + lia.
    + apply (bool_decide_unpack _). vm_compute. exact I.
Defined.

(** C5 as the specification states it fails at [N = 2^32]: the
    [unsigned int] counter never reaches that size, whatever the number of
    passes, so the call does not return a deck. *)
Lemma C5_counterexample :
  3 ≤ N.to_nat 4294967296 ∧
  GenerateDeck (N.to_nat 4294967296) (CardShuffler_ctor (R := Sample.engine) 0)
  = None ∧
  (∀ fuel, push_back_loop fuel (N.to_nat 4294967296) 0 [] = None).
Proof.
  assert (UINT_MAX < N.of_nat (N.to_nat 4294967296))%N as Hlarge
    by (rewrite N2Nat.id; unfold UINT_MAX; lia).
  split_and!; [lia|by apply GenerateDeck_too_large|].
  intros fuel. apply push_back_loop_never; [done|unfold UINT_MAX; lia].
Qed.

Lemma C5_generate_witness :
  3 ≤ 7 ∧ (N.of_nat 7 ≤ INT_MAX)%N ∧
  ∃ s', GenerateDeck 7 Sample.odd_deck = Some (seq 0 7, s') ∧
    GetDeck s' = seq 0 7 ∧
    length (GetDeck s') = 7 ∧
    IsDeckRestored s' = true.
Proof.
  split; [lia|]. split; [unfold INT_MAX; lia|].
  apply (C5_generate Sample.odd_deck 7); [lia|unfold INT_MAX; lia].
Defined.

Lemma C6_generate_undersized_witness :
  2 < 3 ∧
  fst <$> GenerateDeck 2 Sample.odd_deck = Some [] ∧
  length ∘ fst <$> GenerateDeck 2 Sample.odd_deck = Some 0 ∧
  GetDeck ∘ snd
    <$> GenerateDeck 2 (CardShuffler_ctor (R := Sample.engine) 2026)
    = Some [].
Proof.
  split; [lia|]. apply (C6_generate_undersized Sample.odd_deck 2 2026). lia.
Defined.

Lemma C7_riffle_deterministic_witness :
  ∃ s1' s2',
    PerformShuffle INV_INSHUFFLE Sample.odd_deck = Some s1' ∧
    PerformShuffle INV_INSHUFFLE
      (set_deck_urng Sample.odd_deck (m_deck Sample.odd_deck) 99%N)
      = Some s2' ∧
    m_deck s1' = m_deck s2' ∧
    m_urng s1' = m_urng Sample.odd_deck ∧ m_urng s2' = 99%N.
Proof.
  apply (C7_riffle_deterministic INV_INSHUFFLE Sample.odd_deck
           (set_deck_urng Sample.odd_deck (m_deck Sample.odd_deck) 99%N)).
  - reflexivity.
  - split; reflexivity.
  - split; reflexivity.
  - reflexivity.
Defined.

Lemma C9_failed_generate_keeps_state_witness :
  1 < 3 ∧
  GenerateDeck 1 Sample.even_deck = Some ([], Sample.even_deck) ∧
  GetDeck ∘ snd <$> GenerateDeck 1 Sample.even_deck
    = Some (GetDeck Sample.even_deck) ∧
  m_deckSize ∘ snd <$> GenerateDeck 1 Sample.even_deck = Some 6 ∧
  m_bIsDeckOdd ∘ snd <$> GenerateDeck 1 Sample.even_deck = Some false.
Proof.
  split; [lia|].
  apply (C9_failed_generate_keeps_state Sample.even_deck 1). lia.
Defined.

Lemma C10_empty_deck_restored_witness :
  GetDeck <$> generate_all [0; 2; 1] (CardShuffler_ctor (R := Sample.engine) 0)
    = Some [] ∧
  IsDeckRestored
    <$> generate_all [0; 2; 1] (CardShuffler_ctor (R := Sample.engine) 0)
    = Some true.
Proof.
  apply (C10_empty_deck_restored (R := Sample.engine) 0 [0; 2; 1]).
  repeat constructor.
Defined.

(** * Further properties of the member functions *)

(** ** Sorted decks, inverses and positions of the riffle permutations *)

Section more_riffle_facts.
Implicit Types l d v w : list T.













End more_riffle_facts.

(** ** What every reachable object satisfies *)

Section more_members.
Context {R : StdRandom}.
Implicit Types (s : CardShuffler) (d l : list T).

Lemma PerformShuffle_Some_Permutation `{!StdRandomSpec R} k s s' :
  Invariant s → PerformShuffle k s = Some s' → m_deck s' ≡ₚ m_deck s.
Proof.
  intros Hs Hk. destruct (is_riffle k) eqn:Hr.
  - rewrite PerformShuffle_riffle in Hk by done. simplify_eq.
    apply riffle_perm_Permutation.
  - pose proof (inv_size _ Hs) as Hsz.
    destruct k; try done; cbn [PerformShuffle] in Hk.
    + pose proof (std_shuffle_perm (m_deck s) (m_urng s)) as Hp.
      destruct (std_shuffle (m_deck s) (m_urng s)) as [deck g].
      by simplify_eq.
    + case_decide; [done|].
      destruct (fisher_yates_loop_Permutation (m_deckSize s - 1)
                  (m_deck s) (m_urng s)) as (deck & g & Hloop & Hp); [lia|].
      rewrite Hloop in Hk. cbn in Hk. by simplify_eq.
Qed.

Lemma GenerateDeck_DeckInvariant size s deck s' :
  DeckInvariant s → GenerateDeck size s = Some (deck, s') → DeckInvariant s'.
Proof.
  intros Hs Hgen.
  split; [by eapply GenerateDeck_Invariant; [apply Hs|]|].
  apply GenerateDeck_Some in Hgen as [(_ & _ & ->)|(Hsize & _ & ->)];
    [apply Hs|].
  cbn. split; [done|by right].
Qed.

Lemma PerformShuffle_DeckInvariant `{!StdRandomSpec R} k s s' :
  DeckInvariant s → PerformShuffle k s = Some s' → DeckInvariant s'.
Proof.
  intros (Hs & Hp & Hsize) Hk.
  pose proof (PerformShuffle_Invariant k s s' Hs Hk) as Hs'.
  pose proof (PerformShuffle_Some_Permutation k s s' Hs Hk) as Hp'.
  assert (m_deckSize s' = m_deckSize s) as Hsz.
  { rewrite (inv_size _ Hs), (inv_size _ Hs').
    by apply Permutation_length. }
  split; [done|]. rewrite Hsz. split; [by rewrite Hp'|done].
Qed.

Lemma RestoreDeck_loop_DeckInvariant `{!StdRandomSpec R} fuel k n s n' s' :
  DeckInvariant s → RestoreDeck_loop fuel k n s = Some (n', s') →
  DeckInvariant s'.
Proof.
  revert n s. induction fuel as [|fuel IH]; intros n s Hs Hloop; [done|].
  cbn [RestoreDeck_loop] in Hloop.
  destruct (PerformShuffle k s) as [s1|] eqn:Hk; [|done]. cbn in Hloop.
  apply PerformShuffle_DeckInvariant in Hk; [|done].
  destruct (IsDeckRestored s1); simplify_eq; eauto.
Qed.

Lemma reachable_DeckInvariant `{!StdRandomSpec R} s :
  reachable s → DeckInvariant s.
Proof.
  induction 1 as [now|s s' _ IH Hcall].
  - split; [apply ctor_Invariant|]. cbn. split; [done|by left].
  - destruct Hcall as [| ?? [deck ?]%ResetDeck_Some | |].
    + by eapply GenerateDeck_DeckInvariant.
    + by eapply GenerateDeck_DeckInvariant.
    + by eapply PerformShuffle_DeckInvariant.
    + by eapply RestoreDeck_loop_DeckInvariant.
Qed.

(** X1. Whatever sequence of public member functions a client calls on a
    constructed object, [m_deckSize] is the size of the deck and
    [m_bIsDeckOdd] is true exactly when that size is odd. *)
Theorem X1_reachable_size_parity {HR : StdRandomSpec R} s :
  reachable s →
  m_deckSize s = length (GetDeck s) ∧
  (m_bIsDeckOdd s = true ↔ length (GetDeck s) `mod` 2 = 1).
Proof.
  intros [[Hsz Hodd] _]%reachable_DeckInvariant. split; [done|].
  rewrite Hodd, Hsz, bool_decide_eq_true. done.
Qed.

(** X2. The deck of a reachable object is empty or has at least three
    cards: no call leaves a deck of one or two cards. *)
Theorem X2_reachable_deck_size {HR : StdRandomSpec R} s :
  reachable s → length (GetDeck s) = 0 ∨ 3 ≤ length (GetDeck s).
Proof.
  intros ([Hsz _] & _ & Hsize)%reachable_DeckInvariant.
  unfold GetDeck. by rewrite <-Hsz.
Qed.




(** X6. On an object whose deck is empty, [ResetDeck] changes nothing, each
    of the four riffle shuffles returns and changes nothing, and
    [RestoreDeck] with a riffle kind performs one shuffle and returns 1. *)
Theorem X6_empty_deck k fuel s :
  Invariant s → m_deck s = [] → is_riffle k = true →
  ResetDeck s = Some s ∧
  PerformShuffle k s = Some s ∧
  RestoreDeck (S fuel) k s = Some (1, s).
Proof.
  intros Hs Hd Hk.
  assert (PerformShuffle k s = Some s) as Hshuffle.
  { rewrite PerformShuffle_riffle by done. rewrite Hd.
    replace (riffle_perm k []) with (@nil nat) by (by destruct k).
    by rewrite <-Hd, set_deck_id. }
  split_and!; [|done|].
  - unfold ResetDeck. rewrite Hd.
    by rewrite GenerateDeck_fail by (unfold MIN_DECK_SIZE; simpl; lia).
  - unfold RestoreDeck. cbn [RestoreDeck_loop]. rewrite Hshuffle.
    cbn [mbind option_bind]. unfold IsDeckRestored. by rewrite Hd.
Qed.

(** X7. The Fisher-Yates shuffle runs within the bounds of the deck on
    every non-empty deck; on an empty deck its first index, [m_deckSize - 1]
    wrapped around, is out of range. *)
Theorem X7_fisher_yates_defined {HR : StdRandomSpec R} s :
  Invariant s →
  PerformShuffle FISHER_YATES s = None ↔ m_deck s = [].
Proof.
  intros Hs. pose proof (inv_size _ Hs) as Hsz. split.
  - intros Hnone. destruct (m_deck s) as [|x d] eqn:Hd; [done|].
    destruct (PerformShuffle_Permutation FISHER_YATES s) as (s' & Hs' & _);
      [done|rewrite Hd; simpl; lia|congruence].
  - intros Hd. cbn [PerformShuffle]. rewrite Hd in Hsz.
    by rewrite decide_True.
Qed.


End more_members.

(** ** The restore loop *)

Section restore_loop.
Context {R : StdRandom}.
Implicit Types (s : CardShuffler) (d l : list T).

Lemma shuffle_n_S n k s :
  shuffle_n (S n) k s = PerformShuffle k s ≫= shuffle_n n k.
Proof. done. Qed.


Lemma RestoreDeck_loop_spec fuel k c s n s' :
  RestoreDeck_loop fuel k c s = Some (n, s') →
  ∃ m, n = c + m ∧ 1 ≤ m ≤ fuel ∧
    shuffle_n m k s = Some s' ∧ IsDeckRestored s' = true ∧
    ∀ j s_j, 1 ≤ j < m → shuffle_n j k s = Some s_j →
             IsDeckRestored s_j = false.
Proof.
  revert c s. induction fuel as [|fuel IH]; intros c s Hloop; [done|].
  cbn [RestoreDeck_loop] in Hloop.
  destruct (PerformShuffle k s) as [s1|] eqn:Hk; [|done].
  cbn [mbind option_bind] in Hloop.
  destruct (IsDeckRestored s1) eqn:Hrestored.
  - simplify_eq. exists 1. split_and!; [done|lia|lia| |done|].
    + by rewrite shuffle_n_S, Hk.
    + intros j s_j Hj. lia.
  - apply IH in Hloop as (m & -> & Hm & Hshuffle & Hs' & Hearlier).
    exists (S m). split_and!; [lia|lia|lia| |done|].
    + by rewrite shuffle_n_S, Hk.
    + intros [|[|j]] s_j Hj; [lia| |].
      * rewrite shuffle_n_S, Hk. cbn. by intros [= <-].
      * rewrite shuffle_n_S, Hk. cbn [mbind option_bind].
        apply Hearlier. lia.
Qed.



Lemma RestoreDeck_spec fuel k s n s' :
  RestoreDeck fuel k s = Some (n, s') →
  1 ≤ n ≤ fuel ∧
  shuffle_n n k s = Some s' ∧
  IsDeckRestored s' = true ∧
  ∀ j s_j, 1 ≤ j < n → shuffle_n j k s = Some s_j →
           IsDeckRestored s_j = false.
Proof.
  intros (m & -> & Hm)%RestoreDeck_loop_spec. by rewrite Nat.add_0_l.
Qed.

(** X9. What [RestoreDeck] returns, when it returns after at most
    [UINT_MAX] shuffles, so that its [unsigned int] counter has not wrapped
    around: a count [n >= 1] (the loop shuffles before it tests, also on a
    deck that is already restored), the object after exactly [n] shuffles,
    whose deck is restored, while after each smaller positive number of
    shuffles the deck was not restored. *)
Theorem X9_RestoreDeck_least fuel k s n s' :
  RestoreDeck fuel k s = Some (n, s') → (N.of_nat n ≤ UINT_MAX)%N →
  1 ≤ n ≤ fuel ∧
  shuffle_n n k s = Some s' ∧
  IsDeckRestored s' = true ∧
  ∀ j s_j, 1 ≤ j < n → shuffle_n j k s = Some s_j →
           IsDeckRestored s_j = false.
Proof. intros Hrun _. by apply RestoreDeck_spec. Qed.



End restore_loop.

(** ** A riffle kind and its inverse; where the cards go *)

Section riffle_positions.
Context {R : StdRandom}.
Implicit Types (s : CardShuffler) (d l : list T).


Lemma alt_length_half l :
  length (alt true l) = (length l + 1) / 2 ∧
  length (alt false l) = length l / 2.
Proof.
  destruct (alt_length l) as [Hsum Hle].
  destruct (parity_cases (length l)) as [m [(? & _ & -> & ->)|(? & _ & -> & ->)]];
    lia.
Qed.



(** X14. Where the inverse out-shuffle puts the cards, for even and odd
    decks: the card at the even position [2 i] goes to position [i], and the
    card at the odd position [2 i + 1] goes to position [i] after the
    ceiling of N/2 cards from the even positions. *)
Theorem X14_inv_outshuffle_positions s :
  Invariant s →
  ∃ s', PerformShuffle INV_OUTSHUFFLE s = Some s' ∧
    length (m_deck s') = length (m_deck s) ∧
    ∀ i, (i < (m_deckSize s + 1) / 2 →
          m_deck s' !! i = m_deck s !! (2 * i)) ∧
         m_deck s' !! ((m_deckSize s + 1) / 2 + i)
         = m_deck s !! (2 * i + 1).
Proof.
  intros Hs. rewrite PerformShuffle_INV_OUTSHUFFLE by done.
  eexists; split; [done|]. cbn [set_deck m_deck].
  rewrite (inv_size _ Hs).
  split; [apply (riffle_perm_length INV_OUTSHUFFLE)|].
  intros i. unfold inv_outshuffle.
  destruct (alt_length_half (m_deck s)) as [Htrue Hfalse].
  destruct (alt_lookup (m_deck s) i) as [<- <-]. split.
  - intros Hi. apply lookup_app_l. lia.
  - rewrite lookup_app_r by lia. f_equal. lia.
Qed.

(** X15. Where the inverse in-shuffle puts the cards, for even and odd
    decks: the card at the odd position [2 i + 1] goes to position [i], and
    the card at the even position [2 i] goes to position [i] after the floor
    of N/2 cards from the odd positions; the last card of an odd deck stays
    where it is. *)
Theorem X15_inv_inshuffle_positions s :
  Invariant s →
  ∃ s', PerformShuffle INV_INSHUFFLE s = Some s' ∧
    length (m_deck s') = length (m_deck s) ∧
    (∀ i, (i < m_deckSize s / 2 →
           m_deck s' !! i = m_deck s !! (2 * i + 1)) ∧
          m_deck s' !! (m_deckSize s / 2 + i) = m_deck s !! (2 * i)) ∧
    (m_bIsDeckOdd s = true →
     m_deck s' !! (m_deckSize s - 1) = m_deck s !! (m_deckSize s - 1)).
Proof.
  intros Hs. rewrite PerformShuffle_INV_INSHUFFLE by done.
  eexists; split; [done|]. cbn [set_deck m_deck].
  destruct Hs as [Hsz Hodd]. rewrite Hodd, Hsz.
  assert (∀ i, (i < length (m_deck s) / 2 →
                inv_inshuffle (m_deck s) !! i = m_deck s !! (2 * i + 1)) ∧
               inv_inshuffle (m_deck s) !! (length (m_deck s) / 2 + i)
               = m_deck s !! (2 * i)) as Hpos.
  { intros i. unfold inv_inshuffle.
    destruct (alt_length_half (m_deck s)) as [Htrue Hfalse].
    destruct (alt_lookup (m_deck s) i) as [<- <-]. split.
    - intros Hi. apply lookup_app_l. lia.
    - rewrite lookup_app_r by lia. f_equal. lia. }
  split_and!; [apply (riffle_perm_length INV_INSHUFFLE)|done|].
  intros Hodd'%bool_decide_eq_true.
  destruct (parity_cases (length (m_deck s)))
    as [m [(? & ? & _)|(HN & _ & Hm & _)]]; [lia|].
  replace (length (m_deck s) - 1) with (length (m_deck s) / 2 + m) at 1
    by lia.
  replace (length (m_deck s) - 1) with (2 * m) by lia.
  apply Hpos.
Qed.

End riffle_positions.

(** ** The helper [copy_every_n] *)

Section copy_every_n_contract.
Context {R : StdRandom}.
Implicit Types src : list T.

Lemma copy_every_n_loop_trailing cnt sp sr sx d1p d1r d1x d2p d2r d2x pos k :
  pos = length sp → k = length d1p → k = length d2p →
  length sr = 2 * cnt → length d1r = cnt → length d2r = cnt →
  copy_every_n_loop cnt (sp ++ sr ++ sx) pos
    (d1p ++ d1r ++ d1x) (d2p ++ d2r ++ d2x) k 2
  = Some (d1p ++ alt true sr ++ d1x, d2p ++ alt false sr ++ d2x).
Proof.
  revert sp sr d1p d1r d2p d2r pos k.
  induction cnt as [|cnt IH];
    intros sp sr d1p d1r d2p d2r pos k -> -> Hp Hsr H1 H2.
  - destruct sr, d1r, d2r; done.
  - destruct sr as [|x [|y sr]]; try (simpl in Hsr; lia).
    destruct d1r as [|a d1r]; [done|]. destruct d2r as [|b d2r]; [done|].
    simpl in Hsr, H1, H2.
    cbn [copy_every_n_loop app].
    rewrite (read_middle sp _ x (length sp)) by done.
    cbn [mbind option_bind].
    rewrite (write_middle d1p) by done. cbn [mbind option_bind].
    rewrite (read_middle2 sp _ y x) by done. cbn [mbind option_bind].
    rewrite (write_middle d2p) by done. cbn [mbind option_bind].
    specialize (IH (sp ++ [x; y]) sr (d1p ++ [x]) d1r (d2p ++ [y]) d2r
                  (length sp + 2) (S (length d1p))).
    rewrite <-!app_assoc in IH. cbn [app] in IH. cbn [alt app].
    apply IH; rewrite ?length_app; simpl; lia.
Qed.

(** X16. The contract of [copy_every_n] with step 2: over a source range of
    [L] cards it makes [L / 2] passes, writes the cards at the even offsets
    of the range to the front of the first destination and the cards at the
    odd offsets to the front of the second, leaves the rest of both
    destinations alone, and ignores the last card of a range of odd
    length. *)
Theorem X16_copy_every_n_contract src srcBegin srcEnd (d1 d2 : list T) :
  srcBegin ≤ srcEnd ≤ length src →
  (srcEnd - srcBegin) / 2 ≤ length d1 →
  (srcEnd - srcBegin) / 2 ≤ length d2 →
  let m := (srcEnd - srcBegin) / 2 in
  let range := take (2 * m) (drop srcBegin src) in
  copy_every_n src srcBegin srcEnd d1 d2 2
  = Some (alt true range ++ drop m d1, alt false range ++ drop m d2).
Proof.
  intros Hrange H1 H2 m range. unfold copy_every_n.
  rewrite decide_True by lia. fold m.
  assert (2 * m ≤ srcEnd - srcBegin) as Hm.
  { subst m. pose proof (Nat.div_mod_eq (srcEnd - srcBegin) 2). lia. }
  rewrite <-(take_drop srcBegin src) at 1.
  rewrite <-(take_drop (2 * m) (drop srcBegin src)) at 1.
  rewrite <-(take_drop m d1) at 1. rewrite <-(take_drop m d2) at 1.
  apply (copy_every_n_loop_trailing m (take srcBegin src) range _
           [] (take m d1) _ [] (take m d2)).
  - rewrite length_take. lia.
  - done.
  - done.
  - subst range. rewrite length_take, length_drop. lia.
  - rewrite length_take. lia.
  - rewrite length_take. lia.
Qed.

Lemma copy_every_n_loop_overflow cnt src pos (d1 d2 : list T) k :
  0 < cnt → length d1 < k + cnt ∨ length d2 < k + cnt →
  copy_every_n_loop cnt src pos d1 d2 k 2 = None.
Proof.
  revert pos d1 d2 k. induction cnt as [|cnt IH];
    intros pos d1 d2 k Hcnt Hshort; [lia|].
  cbn [copy_every_n_loop].
  destruct (Vec.read src pos) as [x|]; [|done]. cbn [mbind option_bind].
  destruct (Vec.write d1 k x) as [d1'|] eqn:Hw1; [|done].
  cbn [mbind option_bind].
  destruct (Vec.read src (pos + 1)) as [y|]; [|done].
  cbn [mbind option_bind].
  destruct (Vec.write d2 k y) as [d2'|] eqn:Hw2; [|done].
  cbn [mbind option_bind].
  pose proof (write_length _ _ _ _ Hw1) as Hl1.
  pose proof (write_length _ _ _ _ Hw2) as Hl2.
  unfold Vec.write in Hw1, Hw2. repeat case_decide; simplify_eq.
  destruct cnt as [|cnt]; [lia|]. apply IH; lia.
Qed.

(** X17. [copy_every_n] does not check the size of its destinations: when
    a destination is shorter than the number of passes, half the length of
    the source range, the call writes past the end of that destination
    (undefined behaviour, [None] in the model). *)
Theorem X17_copy_every_n_overflow src srcBegin srcEnd (d1 d2 : list T) :
  length d1 < (srcEnd - srcBegin) / 2 ∨ length d2 < (srcEnd - srcBegin) / 2 →
  copy_every_n src srcBegin srcEnd d1 d2 2 = None.
Proof.
  intros Hshort. unfold copy_every_n. case_decide; [|done].
  apply copy_every_n_loop_overflow; lia.
Qed.

End copy_every_n_contract.

(** ** The further properties at concrete inputs *)

Lemma run_shuffled_reachable : reachable Run.shuffled.
Proof.
  apply (reachable_call Run.generated).
  - apply (reachable_call (CardShuffler_ctor 2026)).
    + apply reachable_ctor.
    + apply (call_GenerateDeck 6 _ (seq 0 6)). vm_compute. reflexivity.
  - apply (call_PerformShuffle FISHER_YATES). vm_compute. reflexivity.
Qed.

Lemma X1_reachable_size_parity_witness :
  m_deckSize Run.shuffled = length (GetDeck Run.shuffled) ∧
  (m_bIsDeckOdd Run.shuffled = true ↔
   length (GetDeck Run.shuffled) `mod` 2 = 1).
Proof.
  apply (X1_reachable_size_parity (HR := sample_engine_spec) Run.shuffled).
  exact run_shuffled_reachable.
Defined.

Lemma X2_reachable_deck_size_witness :
  length (GetDeck Run.shuffled) = 0 ∨ 3 ≤ length (GetDeck Run.shuffled).
Proof.
  apply (X2_reachable_deck_size (HR := sample_engine_spec) Run.shuffled).
  exact run_shuffled_reachable.
Defined.




Lemma X6_empty_deck_witness :
  ResetDeck (CardShuffler_ctor (R := Sample.engine) 0)
    = Some (CardShuffler_ctor 0) ∧
  PerformShuffle INSHUFFLE (CardShuffler_ctor (R := Sample.engine) 0)
    = Some (CardShuffler_ctor 0) ∧
  RestoreDeck 4 INSHUFFLE (CardShuffler_ctor (R := Sample.engine) 0)
    = Some (1, CardShuffler_ctor 0).
Proof.
  apply (X6_empty_deck INSHUFFLE 3 (CardShuffler_ctor (R := Sample.engine) 0)).
  - split; reflexivity.
  - reflexivity.
  - reflexivity.
Defined.

Lemma X7_fisher_yates_defined_witness :
  PerformShuffle FISHER_YATES Sample.even_deck = None ↔
  m_deck Sample.even_deck = [].
Proof.
  apply (X7_fisher_yates_defined (HR := sample_engine_spec) Sample.even_deck).
  split; reflexivity.
Defined.


Lemma X9_RestoreDeck_least_witness :
  RestoreDeck 10 STL_SHUFFLE Run.generated
    = Some (2, set_deck_urng Run.generated [0; 1; 2; 3; 4; 5]
                 (Sample.next (Sample.next (m_urng Run.generated)))) ∧
  1 ≤ 2 ≤ 10 ∧
  shuffle_n 2 STL_SHUFFLE Run.generated
    = Some (set_deck_urng Run.generated [0; 1; 2; 3; 4; 5]
              (Sample.next (Sample.next (m_urng Run.generated)))) ∧
  IsDeckRestored
    (set_deck_urng Run.generated [0; 1; 2; 3; 4; 5]
       (Sample.next (Sample.next (m_urng Run.generated)))) = true ∧
  ∀ j s_j, 1 ≤ j < 2 → shuffle_n j STL_SHUFFLE Run.generated = Some s_j →
           IsDeckRestored s_j = false.
Proof.
  assert (RestoreDeck 10 STL_SHUFFLE Run.generated
          = Some (2, set_deck_urng Run.generated [0; 1; 2; 3; 4; 5]
                       (Sample.next (Sample.next (m_urng Run.generated)))))
    as Hrun by (vm_compute; reflexivity).
  split; [exact Hrun|].
  apply (X9_RestoreDeck_least 10 STL_SHUFFLE Run.generated 2 _ Hrun).
  unfold UINT_MAX. lia.
Defined.





Lemma X14_inv_outshuffle_positions_witness :
  ∃ s', PerformShuffle INV_OUTSHUFFLE Sample.even_deck = Some s' ∧
    length (m_deck s') = length (m_deck Sample.even_deck) ∧
    ∀ i, (i < (m_deckSize Sample.even_deck + 1) / 2 →
          m_deck s' !! i = m_deck Sample.even_deck !! (2 * i)) ∧
         m_deck s' !! ((m_deckSize Sample.even_deck + 1) / 2 + i)
         = m_deck Sample.even_deck !! (2 * i + 1).
Proof.
  apply (X14_inv_outshuffle_positions Sample.even_deck). split; reflexivity.
Defined.

Lemma X15_inv_inshuffle_positions_witness :
  ∃ s', PerformShuffle INV_INSHUFFLE Sample.odd_deck = Some s' ∧
    length (m_deck s') = length (m_deck Sample.odd_deck) ∧
    (∀ i, (i < m_deckSize Sample.odd_deck / 2 →
           m_deck s' !! i = m_deck Sample.odd_deck !! (2 * i + 1)) ∧
          m_deck s' !! (m_deckSize Sample.odd_deck / 2 + i)
          = m_deck Sample.odd_deck !! (2 * i)) ∧
    (m_bIsDeckOdd Sample.odd_deck = true →
     m_deck s' !! (m_deckSize Sample.odd_deck - 1)
     = m_deck Sample.odd_deck !! (m_deckSize Sample.odd_deck - 1)).
Proof.
  apply (X15_inv_inshuffle_positions Sample.odd_deck). split; reflexivity.
Defined.

Lemma X16_copy_every_n_contract_witness :
  copy_every_n [10; 11; 12; 13; 14; 15] 1 6 [0; 0; 0] [0; 0] 2
  = Some ([11; 13; 0], [12; 14]).
Proof.
  apply (X16_copy_every_n_contract [10; 11; 12; 13; 14; 15] 1 6
           [0; 0; 0] [0; 0]); simpl; lia.
Defined.

Lemma X17_copy_every_n_overflow_witness :
  copy_every_n [10; 11; 12; 13; 14; 15] 1 6 [0; 0; 0] [0] 2 = None.
Proof.
  apply (X17_copy_every_n_overflow [10; 11; 12; 13; 14; 15] 1 6
           [0; 0; 0] [0]).
  right. simpl. lia.
Defined.
